(** * Folder-scoped preference resolution

    A shallow embedding of [FoldersPreferencesProvider]
    (packages/preferences/src/browser/folders-preferences-provider.ts):
    the provider registry ([updateProviders]), the folder selector
    ([getFolderProviders]), the grouping by logical config name
    ([groupProvidersByConfigName]) and the resolution engine ([resolve],
    [getPreferences], [setPreference]).

    The collaborators the class imports (the configuration naming policy, the
    file-backed folder provider, URI and Path) are interfaces here: records of
    functions, over which every statement is universally quantified. *)

From Stdlib Require Import List String Ascii Bool ZArith Lia Arith Permutation.
Import ListNotations.

Local Open Scope string_scope.
Local Open Scope list_scope.

(** A URI is identified with its canonical string form, [uri.toString()]. *)
Abbreviation URI := string (only parsing).

(** Membership test on strings, as [Array.prototype.indexOf] / [Set.has] do
    with [===]. *)
Definition mem (k : string) (l : list string) : bool :=
  existsb (String.eqb k) l.

(** ** ES2015 [Map] with string keys

    Iteration follows insertion order; [set] on a present key keeps the key's
    position and replaces the value; [delete] removes the entry. *)
Module OrderedMap.
Section Defs.
Context {V : Type}.

Definition t := list (string * V).

Definition empty : t := [].

Definition keys (m : t) : list string := map fst m.

Definition values (m : t) : list V := map snd m.

Fixpoint get (k : string) (m : t) : option V :=
  match m with
  | [] => None
  | (k', v) :: m' => if String.eqb k' k then Some v else get k m'
  end.

Definition has (k : string) (m : t) : bool :=
  match get k m with Some _ => true | None => false end.

Fixpoint set (k : string) (v : V) (m : t) : t :=
  match m with
  | [] => [(k, v)]
  | (k', v') :: m' =>
      if String.eqb k' k then (k', v) :: m' else (k', v') :: set k v m'
  end.

Definition delete (k : string) (m : t) : t :=
  filter (fun e => negb (String.eqb (fst e) k)) m.
End Defs.
Arguments t : clear implicits.
End OrderedMap.

(** ** ES2015 [Set] of strings, in insertion order *)
Module StringSet.
Definition t := list string.

(** [new Set(iterable)] *)
Definition of_list (l : list string) : t := nodup string_dec l.

Definition delete (k : string) (s : t) : t :=
  filter (fun k' => negb (String.eqb k' k)) s.
End StringSet.

(** [o || []] for an optional array. *)
Definition orEmpty {A} (o : option (list A)) : list A :=
  match o with Some l => l | None => [] end.

(** ** Collaborators *)

(** A workspace root, [{ uri }]. *)
Record Folder := { uri : string }.

(** [PreferenceConfigurations]: the configuration naming policy. *)
Record PreferenceConfigurations := {
  getPaths : list string;
  getSectionNames : list string;
  getConfigName : string;
  createUri : URI -> string -> string -> URI;
  getName : URI -> string;
  getPath : URI -> string;
  isSectionName : string -> bool
}.

(** ** Provider registry *)

(** What a recomputation pass does to the outside: it asks the factory for a
    provider ([createProvider]) or disposes one ([provider.dispose()]). Both
    are recorded under the provider's Config Identity Key. *)
Inductive LifecycleEvent :=
| Created (key : string)
| Disposed (key : string).

Definition LifecycleEvent_eq_dec (a b : LifecycleEvent) : {a = b} + {a <> b}.
Proof. decide equality; apply string_dec. Defined.

Section Registry.
Variable Provider : Type.
(** [folderPreferenceProviderFactory(options)] with
    [options = { folder, configUri }]. *)
Variable folderPreferenceProviderFactory : Folder -> URI -> Provider.

(** [this.providers] together with the trace of lifecycle events. *)
Record Registry := {
  providers : OrderedMap.t Provider;
  events : list LifecycleEvent
}.

(** The state of a freshly constructed [FoldersPreferencesProvider]. *)
Definition initial : Registry := {| providers := OrderedMap.empty; events := [] |}.

(** Loop state of [updateProviders]: [toDelete] and the registry. *)
Definition PassState : Type := StringSet.t * Registry.

(** [[...getSectionNames(), getConfigName()]] *)
Definition configNames (cfg : PreferenceConfigurations) : list string :=
  getSectionNames cfg ++ [getConfigName cfg].

(** Body of the innermost loop of [updateProviders]. *)
Definition visit (cfg : PreferenceConfigurations) (folder : Folder)
    (configPath : string) (st : PassState) (configName : string) : PassState :=
  let '(toDelete, reg) := st in
  let configUri := createUri cfg (uri folder) configPath configName in
  let key := configUri in
  let toDelete := StringSet.delete key toDelete in
  if OrderedMap.has key (providers reg) then (toDelete, reg)
  else
    let provider := folderPreferenceProviderFactory folder configUri in
    (toDelete,
     {| providers := OrderedMap.set key provider (providers reg);
        events := events reg ++ [Created key] |}).

(** Body of the second loop of [updateProviders]. *)
Definition sweep (reg : Registry) (key : string) : Registry :=
  match OrderedMap.get key (providers reg) with
  | Some _ =>
      {| providers := OrderedMap.delete key (providers reg);
         events := events reg ++ [Disposed key] |}
  | None => reg
  end.

Definition updateProviders (cfg : PreferenceConfigurations)
    (roots : list Folder) (reg : Registry) : Registry :=
  let toDelete := StringSet.of_list (OrderedMap.keys (providers reg)) in
  let '(toDelete, reg) :=
    fold_left (fun st folder =>
      fold_left (fun st configPath =>
        fold_left (visit cfg folder configPath) (configNames cfg) st)
        (getPaths cfg) st)
      roots (toDelete, reg) in
  fold_left sweep toDelete reg.

(** The desired set: the [(folder, key)] combinations of
    roots x paths x (section names, then the config name), in loop order. *)
Definition desired (cfg : PreferenceConfigurations) (roots : list Folder)
    : list (Folder * URI) :=
  flat_map (fun folder =>
    flat_map (fun configPath =>
      map (fun configName =>
             (folder, createUri cfg (uri folder) configPath configName))
          (configNames cfg))
      (getPaths cfg))
    roots.

Definition desiredKeys (cfg : PreferenceConfigurations) (roots : list Folder)
    : list string :=
  map snd (desired cfg roots).

(** The innermost loop body, on an entry of [desired]. *)
Definition visitEntry (st : PassState) (e : Folder * URI) : PassState :=
  let '(toDelete, reg) := st in
  let toDelete := StringSet.delete (snd e) toDelete in
  if OrderedMap.has (snd e) (providers reg) then (toDelete, reg)
  else
    (toDelete,
     {| providers :=
          OrderedMap.set (snd e) (folderPreferenceProviderFactory (fst e) (snd e))
                         (providers reg);
        events := events reg ++ [Created (snd e)] |}).

(** The entries a pass has to create: those of the desired set whose key is
    neither among [seen] nor earlier in the list. *)
Fixpoint freshEntries (seen : list string) (es : list (Folder * URI))
    : OrderedMap.t Provider :=
  match es with
  | [] => []
  | e :: es' =>
      if mem (snd e) seen then freshEntries seen es'
      else (snd e, folderPreferenceProviderFactory (fst e) (snd e))
             :: freshEntries (seen ++ [snd e]) es'
  end.

(** The keys a pass has to dispose: the registered keys that are no longer
    desired. *)
Definition staleKeys (cfg : PreferenceConfigurations) (roots : list Folder)
    (reg : Registry) : list string :=
  filter (fun k => negb (mem k (desiredKeys cfg roots)))
         (StringSet.of_list (OrderedMap.keys (providers reg))).

(** Registries that the program can be in: the initial one, and the result
    of a recomputation pass for any roots and any configuration. *)
Inductive reachable : Registry -> Prop :=
| reachable_initial : reachable initial
| reachable_update cfg roots reg :
    reachable reg -> reachable (updateProviders cfg roots reg).
End Registry.

Arguments providers {Provider} _.
Arguments events {Provider} _.
Arguments initial {Provider}.
Arguments updateProviders {Provider} _ _ _ _.
Arguments reachable {Provider} _ _.
Arguments desired _ _ : assert.

(** ** Preference values *)

#[local] Set Warnings "-register-all".

(** JSON values; an object keeps its fields in insertion order. *)
Inductive JSON :=
| JNull
| JBool (b : bool)
| JNum (n : Z)
| JStr (s : string)
| JArr (items : list JSON)
| JObj (fields : list (string * JSON)).

(** [{ value?: T, configUri?: URI }] *)
Record PreferenceResolveResult := {
  value : option JSON;
  configUri : option URI
}.

(** [source[key] = f(source[key])] when [key in source], else
    [source[key] = v]. *)
Fixpoint assign (k : string) (f : JSON -> JSON) (v : JSON)
    (source : list (string * JSON)) : list (string * JSON) :=
  match source with
  | [] => [(k, v)]
  | (k', old) :: rest =>
      if String.eqb k' k then (k', f old) :: rest
      else (k', old) :: assign k f v rest
  end.

(** Modelled from the spec: [PreferenceProvider.merge] lives in
    [@ali/ide-core-browser], which is not part of the sources at hand. The
    spec calls it a deep, right-biased override merge: the later (target)
    value overrides the earlier (source) one on overlapping keys, keys of only
    one side are unioned, and two objects under the same key are merged
    recursively. *)
Fixpoint mergeValue (source target : JSON) {struct target} : JSON :=
  match target with
  | JObj tfields =>
      match source with
      | JObj sfields =>
          JObj ((fix mergeFields (acc tfs : list (string * JSON)) {struct tfs} :=
                   match tfs with
                   | [] => acc
                   | (k, v) :: tfs' =>
                       mergeFields (assign k (fun old => mergeValue old v) v acc) tfs'
                   end) sfields tfields)
      | _ => target
      end
  | _ => target
  end.

(** The field-wise loop of [mergeValue], named. *)
Definition mergeFields (acc tfs : list (string * JSON)) : list (string * JSON) :=
  fold_left (fun acc kv => assign (fst kv) (fun old => mergeValue old (snd kv)) (snd kv) acc)
            tfs acc.

(** Modelled from the spec: [PreferenceProvider.merge(source, target)], whose
    source is [undefined] as long as nothing was accumulated. *)
Definition merge (source : option JSON) (target : JSON) : JSON :=
  match source with
  | None => target
  | Some s => mergeValue s target
  end.

(** ** The file-backed folder provider and paths, as interfaces *)

(** [FolderPreferenceProvider]: what the resolution engine calls on a
    provider. Reads depend on the state of the outside world (the files on
    disk); [setPreference] changes it. [configUriOf] is the call
    [provider.getConfigUri()] without a resource, which yields the provider's
    own config URI. *)
Record ProviderOps (World Provider : Type) := {
  folderUri : Provider -> URI;
  configUriOf : Provider -> URI;
  getConfigUriFor : World -> Provider -> option string -> option URI;
  resolveIn : World -> Provider -> string -> option string -> PreferenceResolveResult;
  getPreferencesOf : World -> Provider -> list (string * JSON);
  setPreferenceOn : Provider -> string -> JSON -> option string -> World -> bool * World
}.
Arguments folderUri {World Provider} _ _.
Arguments configUriOf {World Provider} _ _.
Arguments getConfigUriFor {World Provider} _ _ _ _.
Arguments resolveIn {World Provider} _ _ _ _ _.
Arguments getPreferencesOf {World Provider} _ _ _.
Arguments setPreferenceOn {World Provider} _ _ _ _ _ _.

(** [URI.path] and [Path.relativity]. *)
Record PathOps (Path : Type) := {
  pathOf : URI -> Path;
  relativity : Path -> Path -> Z
}.
Arguments pathOf {Path} _ _.
Arguments relativity {Path} _ _ _.

Definition MAX_SAFE_INTEGER : Z := 9007199254740991.

(** The running best folder of [getFolderProviders],
    [{ relativity: number, uri?: string }]. *)
Record BestFolder := {
  best_relativity : Z;
  best_uri : option string
}.

(** A thunk of the candidate queue of [setPreference]: the closure pushed in
    the loop over the providers ([Tier1]), the closure that one pushes when it
    returns no provider ([Tier2]), and [() => provider], pushed by the second
    ([Tier3]). *)
Inductive Thunk (Provider : Type) :=
| Tier1 (provider : Provider)
| Tier2 (provider : Provider)
| Tier3 (provider : Provider).
Arguments Tier1 {Provider} _.
Arguments Tier2 {Provider} _.
Arguments Tier3 {Provider} _.

(** One turn of the [while (next)] loop: the thunk that was called and, when
    it returned a provider, what that provider's [setPreference] answered. *)
Record Turn (Provider : Type) := {
  called : Thunk Provider;
  written : option bool
}.
Arguments called {Provider} _.
Arguments written {Provider} _.

(** What a call of [setPreference] leaves behind: the boolean it resolves to,
    the world after the writes, and the turns the loop took. *)
Record SetResult (World Provider : Type) := {
  ok : bool;
  world : World;
  turns : list (Turn Provider)
}.
Arguments ok {World Provider} _.
Arguments world {World Provider} _.
Arguments turns {World Provider} _.

(** [preferenceName.split('.', 1)[0]] *)
Fixpoint firstSegment (s : string) : string :=
  match s with
  | EmptyString => EmptyString
  | String c s' => if Ascii.eqb c "."%char then EmptyString else String c (firstSegment s')
  end.

Section Engine.
Context {World Provider Path : Type}.
Variable P : ProviderOps World Provider.
Variable U : PathOps Path.
Variable cfg : PreferenceConfigurations.

(** ** Folder selector *)

(** Body of the loop of [getFolderProviders]. *)
Definition scan (resourcePath : Path)
    (st : BestFolder * OrderedMap.t (list Provider)) (provider : Provider)
    : BestFolder * OrderedMap.t (list Provider) :=
  let '(folder, providers) := st in
  let uri := folderUri P provider in
  let folderProviders :=
    match OrderedMap.get uri providers with Some l => l | None => [] end in
  let folderProviders := folderProviders ++ [provider] in
  let providers := OrderedMap.set uri folderProviders providers in
  let relativity := relativity U (pathOf U uri) resourcePath in
  if (0 <=? relativity)%Z && (relativity <? best_relativity folder)%Z
  then ({| best_relativity := relativity; best_uri := Some uri |}, providers)
  else (folder, providers).

Definition getFolderProviders (registry : OrderedMap.t Provider)
    (resourceUri : option string) : list Provider :=
  match resourceUri with
  | None => []
  | Some r =>
      if String.eqb r "" then []
      else
        let resourcePath := pathOf U r in
        let '(folder, providers) :=
          fold_left (scan resourcePath) (OrderedMap.values registry)
            ({| best_relativity := MAX_SAFE_INTEGER; best_uri := None |},
             OrderedMap.empty) in
        match best_uri folder with
        | Some uri =>
            if String.eqb uri "" then []
            else match OrderedMap.get uri providers with
                 | Some l => l
                 | None => []
                 end
        | None => []
        end
  end.

(** The relativity score of a provider's folder for a resource, as the loop
    computes it. *)
Definition relativityTo (r : string) (provider : Provider) : Z :=
  relativity U (pathOf U (folderUri P provider)) (pathOf U r).

(** What one turn of the loop does to the running best folder. *)
Definition pick (resourcePath : Path) (folder : BestFolder) (provider : Provider)
    : BestFolder :=
  fst (scan resourcePath (folder, OrderedMap.empty) provider).

(** The providers of one folder, in registry order. *)
Definition providersOf (uri : string) (registry : OrderedMap.t Provider)
    : list Provider :=
  filter (fun provider => String.eqb (folderUri P provider) uri)
         (OrderedMap.values registry).

(** ** Grouping by logical config name *)

Definition groupProvidersByConfigName (registry : OrderedMap.t Provider)
    (resourceUri : option string) : OrderedMap.t (list Provider) :=
  let providers := getFolderProviders registry resourceUri in
  fold_left (fun groups configName =>
      let group :=
        filter (fun provider =>
                  String.eqb (getName cfg (configUriOf P provider)) configName)
               providers in
      OrderedMap.set configName group groups)
    (getConfigName cfg :: getSectionNames cfg) OrderedMap.empty.

(** ** Reads *)

(** The inner loop of [resolve] over one group, with its [break]. *)
Fixpoint resolveGroup (w : World) (preferenceName : string)
    (resourceUri : option string) (result : PreferenceResolveResult)
    (group : list Provider) : PreferenceResolveResult :=
  match group with
  | [] => result
  | provider :: rest =>
      let r := resolveIn P w provider preferenceName resourceUri in
      match configUri r, value r with
      | Some cu, Some v =>
          {| value := Some (merge (value result) v); configUri := Some cu |}
      | _, _ => resolveGroup w preferenceName resourceUri result rest
      end
  end.

Definition resolve (w : World) (registry : OrderedMap.t Provider)
    (preferenceName : string) (resourceUri : option string)
    : PreferenceResolveResult :=
  let groups := groupProvidersByConfigName registry resourceUri in
  fold_left (resolveGroup w preferenceName resourceUri)
    (OrderedMap.values groups) {| value := None; configUri := None |}.

(** The inner loop of [getPreferences] over one group, with its [break]. *)
Fixpoint preferencesGroup (w : World) (resourceUri : option string)
    (result : JSON) (group : list Provider) : JSON :=
  match group with
  | [] => result
  | provider :: rest =>
      match getConfigUriFor P w provider resourceUri with
      | Some _ => merge (Some result) (JObj (getPreferencesOf P w provider))
      | None => preferencesGroup w resourceUri result rest
      end
  end.

Definition getPreferences (w : World) (registry : OrderedMap.t Provider)
    (resourceUri : option string) : JSON :=
  let groups := groupProvidersByConfigName registry resourceUri in
  fold_left (preferencesGroup w resourceUri) (OrderedMap.values groups) (JObj []).

(** ** Write routing *)

(** Body of the loop of [setPreference] that fills the queue. *)
Definition enqueue (w : World) (resourceUri : option string) (configName : string)
    (st : option string * list (Thunk Provider)) (provider : Provider)
    : option string * list (Thunk Provider) :=
  let '(configPath, iterator) := st in
  let configPath :=
    match configPath with
    | None =>
        match getConfigUriFor P w provider resourceUri with
        | Some configUri => Some (getPath cfg configUri)
        | None => None
        end
    | Some _ => configPath
    end in
  if String.eqb (getName cfg (configUriOf P provider)) configName
  then (configPath, iterator ++ [Tier1 provider])
  else (configPath, iterator).

(** Calling a thunk: the provider it returns, if any, and the thunks it
    pushes to the queue. [configPath] is the variable the closures share. *)
Definition call (w : World) (resourceUri : option string)
    (configPath : option string) (next : Thunk Provider)
    : option Provider * list (Thunk Provider) :=
  match next with
  | Tier1 provider =>
      match getConfigUriFor P w provider resourceUri with
      | Some _ => (Some provider, [])
      | None => (None, [Tier2 provider])
      end
  | Tier2 provider =>
      match configPath with
      | Some cp =>
          if String.eqb (getPath cfg (configUriOf P provider)) cp
          then (Some provider, [])
          else (None, [Tier3 provider])
      | None => (None, [Tier3 provider])
      end
  | Tier3 provider => (Some provider, [])
  end.

(** The [while (next)] loop. [fuel] bounds the number of turns; [None] is
    running out of it. *)
Fixpoint drain (fuel : nat) (preferenceName : string) (v : JSON)
    (resourceUri : option string) (configPath : option string)
    (iterator : list (Thunk Provider)) (w : World)
    (done : list (Turn Provider)) : option (SetResult World Provider) :=
  match fuel with
  | O => None
  | S fuel =>
      match iterator with
      | [] => Some {| ok := false; world := w; turns := done |}
      | next :: iterator =>
          let '(selected, pushed) := call w resourceUri configPath next in
          let iterator := iterator ++ pushed in
          match selected with
          | Some provider =>
              let '(success, w') :=
                setPreferenceOn P provider preferenceName v resourceUri w in
              let done := done ++ [{| called := next; written := Some success |}] in
              if success
              then Some {| ok := true; world := w'; turns := done |}
              else drain fuel preferenceName v resourceUri configPath iterator w' done
          | None =>
              drain fuel preferenceName v resourceUri configPath iterator w
                (done ++ [{| called := next; written := None |}])
          end
      end
  end.

(** The logical config name of a preference name: its first segment when
    that is a section name, the default config name otherwise. *)
Definition configNameFor (preferenceName : string) : string :=
  let sectionName := firstSegment preferenceName in
  if isSectionName cfg sectionName then sectionName else getConfigName cfg.

(** The queue holds one first-tier thunk per candidate, and a thunk stands
    for at most three turns, so the fuel given to the loop never runs out
    (see [setPreference_tiers]). *)
Definition setPreference (w : World) (registry : OrderedMap.t Provider)
    (preferenceName : string) (v : JSON) (resourceUri : option string)
    : option (SetResult World Provider) :=
  let configName := configNameFor preferenceName in
  let providers := getFolderProviders registry resourceUri in
  let '(configPath, iterator) :=
    fold_left (enqueue w resourceUri configName) providers (None, []) in
  drain (3 * List.length iterator + 1) preferenceName v resourceUri configPath iterator w [].
End Engine.

(** ** The walk over the groups, group by group *)

(** The keys of a [Map] filled by successive [set]s: every name at its first
    occurrence. *)
Fixpoint distinctFrom (seen names : list string) : list string :=
  match names with
  | [] => []
  | n :: names' =>
      if mem n seen then distinctFrom seen names'
      else n :: distinctFrom (seen ++ [n]) names'
  end.

Definition distinct (names : list string) : list string := distinctFrom [] names.

Definition isObject (v : JSON) : bool :=
  match v with JObj _ => true | _ => false end.

Section Walk.
Context {World Provider Path : Type}.
Variable P : ProviderOps World Provider.
Variable U : PathOps Path.
Variable cfg : PreferenceConfigurations.

(** The group of one config name: the inner loop of
    [groupProvidersByConfigName]. *)
Definition groupOf (providers : list Provider) (configName : string)
    : list Provider :=
  filter (fun provider =>
            String.eqb (getName cfg (configUriOf P provider)) configName)
         providers.

(** What a group contributes to [resolve]: the answer of its first provider
    that has both a value and a config URI. *)
Fixpoint firstContribution (w : World) (preferenceName : string)
    (resourceUri : option string) (group : list Provider) : option (JSON * URI) :=
  match group with
  | [] => None
  | provider :: rest =>
      let r := resolveIn P w provider preferenceName resourceUri in
      match configUri r, value r with
      | Some cu, Some v => Some (v, cu)
      | _, _ => firstContribution w preferenceName resourceUri rest
      end
  end.

(** What a group contributes to [getPreferences]: the preferences of its
    first provider that has a config URI for the resource. *)
Fixpoint firstPreferences (w : World) (resourceUri : option string)
    (group : list Provider) : option (list (string * JSON)) :=
  match group with
  | [] => None
  | provider :: rest =>
      match getConfigUriFor P w provider resourceUri with
      | Some _ => Some (getPreferencesOf P w provider)
      | None => firstPreferences w resourceUri rest
      end
  end.

(** The contributions to [getPreferences], in the order of the walk. *)
Definition contributions (w : World) (registry : OrderedMap.t Provider)
    (resourceUri : option string) : list (list (string * JSON)) :=
  flat_map (fun group =>
              match firstPreferences w resourceUri group with
              | Some prefs => [prefs]
              | None => []
              end)
           (OrderedMap.values (groupProvidersByConfigName P U cfg registry resourceUri)).
End Walk.

(** ** A workspace to compute with *)

Module Sample.
(** The segments of a string between slashes. *)
Fixpoint segments (s : string) : list string :=
  match s with
  | EmptyString => [EmptyString]
  | String c s' =>
      if Ascii.eqb c "/"%char then EmptyString :: segments s'
      else match segments s' with
           | [] => [String c EmptyString]
           | h :: t => String c h :: t
           end
  end.

(** What follows the scheme of a URI. *)
Fixpoint afterScheme (s : string) : string :=
  match s with
  | EmptyString => EmptyString
  | String c s' => if Ascii.eqb c ":"%char then s' else afterScheme s'
  end.

Definition lastSegment (u : string) : string := last (segments u) "".

Definition parentSegment (u : string) : string :=
  let l := segments u in nth (List.length l - 2) l "".

Fixpoint isPrefix (a b : list string) : bool :=
  match a, b with
  | [], _ => true
  | x :: a', y :: b' => String.eqb x y && isPrefix a' b'
  | _ :: _, [] => false
  end.

Definition sections : list string := ["launch"; "tasks"].

(** Config files are [<folder>/<path>/<name>.json]. *)
Definition cfg : PreferenceConfigurations := {|
  getPaths := [".kaitian"; ".vscode"; ".theia"];
  getSectionNames := sections;
  getConfigName := "settings";
  createUri := fun folder configPath configName =>
                 (folder ++ "/" ++ configPath ++ "/" ++ configName ++ ".json")%string;
  getName := fun u => firstSegment (lastSegment u);
  getPath := parentSegment;
  isSectionName := fun s => mem s sections
|}.

(** A provider is known by the options it was created with. *)
Record Prov := { prov_folder : string; prov_uri : string }.

Definition factory (folder : Folder) (configUri : string) : Prov :=
  {| prov_folder := uri folder; prov_uri := configUri |}.

(** The disk: the config files that exist, with their preferences, and the
    files that refuse to be written. *)
Record Disk := {
  files : OrderedMap.t (list (string * JSON));
  readOnly : list string
}.

Definition ops : ProviderOps Disk Prov := {|
  folderUri := prov_folder;
  configUriOf := prov_uri;
  getConfigUriFor := fun w p r =>
    match r with
    | None => Some (prov_uri p)
    | Some res =>
        if OrderedMap.has (prov_uri p) (files w)
           && isPrefix (segments (prov_folder p)) (segments res)
        then Some (prov_uri p) else None
    end;
  resolveIn := fun w p name _ =>
    match OrderedMap.get (prov_uri p) (files w) with
    | Some prefs => {| value := OrderedMap.get name prefs;
                       configUri := Some (prov_uri p) |}
    | None => {| value := None; configUri := None |}
    end;
  getPreferencesOf := fun w p => orEmpty (OrderedMap.get (prov_uri p) (files w));
  setPreferenceOn := fun p name v _ w =>
    if mem (prov_uri p) (readOnly w) then (false, w)
    else (true,
          {| files :=
               OrderedMap.set (prov_uri p)
                 (OrderedMap.set name v
                    (orEmpty (OrderedMap.get (prov_uri p) (files w))))
                 (files w);
             readOnly := readOnly w |})
|}.

(** Paths are lists of segments; the score of a folder for a resource is
    the number of segments between them, or [-1] when the folder is not
    above the resource. *)
Definition paths : PathOps (list string) := {|
  pathOf := fun u => segments (afterScheme u);
  relativity := fun folder resource =>
    if isPrefix folder resource
    then Z.of_nat (List.length resource - List.length folder)
    else (-1)%Z
|}.

Definition roots : list Folder :=
  [ {| uri := "file:///a" |}; {| uri := "file:///a/b" |} ].

(** The registry after the pass at initialization. *)
Definition registry : Registry Prov := updateProviders factory cfg roots initial.

Definition resource : string := "file:///a/b/c.ts".

Definition emptyDisk : Disk := {| files := []; readOnly := [] |}.

(** The provider of [<folder>/<path>/<name>.json]. *)
Definition providerAt (folder configPath configName : string) : Prov :=
  {| prov_folder := folder;
     prov_uri := createUri cfg folder configPath configName |}.

(** [settings.json] and [launch.json] both define [launch.foo], as
    numbers. *)
Definition numbersDisk : Disk := {|
  files := [ ("file:///a/b/.kaitian/settings.json", [("launch.foo", JNum 1)]);
             ("file:///a/b/.kaitian/launch.json", [("launch.foo", JNum 2)]) ];
  readOnly := []
|}.

(** [settings.json] and [launch.json] both define [launch.foo], as
    objects. *)
Definition objectsDisk : Disk := {|
  files := [ ("file:///a/b/.kaitian/settings.json",
              [("launch.foo", JObj [("a", JNum 1)])]);
             ("file:///a/b/.kaitian/launch.json",
              [("launch.foo", JObj [("b", JNum 2)])]) ];
  readOnly := []
|}.

(** [settings.json] holds [{x:1}], [launch.json] holds [{y:2}]. *)
Definition unionDisk : Disk := {|
  files := [ ("file:///a/b/.kaitian/settings.json", [("x", JNum 1)]);
             ("file:///a/b/.kaitian/launch.json", [("y", JNum 2)]) ];
  readOnly := []
|}.

(** No config file exists, and [.kaitian/settings.json] cannot be
    created. *)
Definition bareDisk : Disk := {|
  files := [];
  readOnly := ["file:///a/b/.kaitian/settings.json"]
|}.

(** [launch.json] exists under [.vscode] and under [.theia];
    [.vscode/settings.json] cannot be created. *)
Definition siblingsDisk : Disk := {|
  files := [ ("file:///a/b/.vscode/launch.json", []);
             ("file:///a/b/.theia/launch.json", []) ];
  readOnly := ["file:///a/b/.vscode/settings.json"]
|}.

(** Two roots with the same path under different schemes, after a root
    above them. *)
Definition twinRoots : list Folder :=
  [ {| uri := "file:///a" |}; {| uri := "theia:///a/b" |}; {| uri := "file:///a/b" |} ].

Definition twinRegistry : Registry Prov := updateProviders factory cfg twinRoots initial.
End Sample.

(** ** The candidate search, tier by tier *)

Section Tiers.
Context {World Provider Path : Type}.
Variable P : ProviderOps World Provider.
Variable U : PathOps Path.
Variable cfg : PreferenceConfigurations.
Variable preferenceName : string.
Variable v : JSON.
Variable resourceUri : option string.

(** The provider a thunk closes over, and the tier of the thunk. *)
Definition owner (t : Thunk Provider) : Provider :=
  match t with Tier1 p | Tier2 p | Tier3 p => p end.

Definition tier (t : Thunk Provider) : nat :=
  match t with Tier1 _ => 1 | Tier2 _ => 2 | Tier3 _ => 3 end.

(** The providers whose thunk of tier [k] was called, in order. *)
Definition calledAt (k : nat) (ts : list (Turn Provider)) : list Provider :=
  map (fun t => owner (called t)) (filter (fun t => Nat.eqb (tier (called t)) k) ts).

(** The providers whose thunk of tier [k] returned no provider. *)
Definition declinedAt (k : nat) (ts : list (Turn Provider)) : list Provider :=
  map (fun t => owner (called t))
      (filter (fun t => Nat.eqb (tier (called t)) k
                        && match written t with None => true | Some _ => false end)
              ts).

(** The writes that were attempted, in order, with their answers. *)
Definition attempts (ts : list (Turn Provider)) : list (Provider * bool) :=
  flat_map (fun t => match written t with
                     | Some b => [(owner (called t), b)]
                     | None => []
                     end) ts.

Definition withTurn (t : Turn Provider) (res : SetResult World Provider)
    : SetResult World Provider :=
  {| ok := ok res; world := world res; turns := t :: turns res |}.

Definition after (done : list (Turn Provider)) (res : SetResult World Provider)
    : SetResult World Provider :=
  {| ok := ok res; world := world res; turns := done ++ turns res |}.

Definition hasConfigUri (w : World) (p : Provider) : bool :=
  match getConfigUriFor P w p resourceUri with Some _ => true | None => false end.

(** The test of the second-tier thunk against the shared [configPath]. *)
Definition pathMatches (configPath : option string) (p : Provider) : bool :=
  match configPath with
  | Some cp => String.eqb (getPath cfg (configUriOf P p)) cp
  | None => false
  end.

(** The value [configPath] has when the queue is filled: the path of the
    config URI of the first of the folder's providers that has one for the
    resource. *)
Fixpoint sharedConfigPath (w : World) (providers : list Provider) : option string :=
  match providers with
  | [] => None
  | p :: rest =>
      match getConfigUriFor P w p resourceUri with
      | Some cu => Some (getPath cfg cu)
      | None => sharedConfigPath w rest
      end
  end.

(** Refused writes leave the providers' answers about their config URI for
    the resource as they were. *)
Definition refusalsKeepConfigUris : Prop :=
  forall p w w',
    setPreferenceOn P p preferenceName v resourceUri w = (false, w') ->
    forall q, hasConfigUri w' q = hasConfigUri w q.

(** The third tier: every provider left over is written to, in order. *)
Fixpoint thirdTier (l : list Provider) (w : World) : SetResult World Provider :=
  match l with
  | [] => {| ok := false; world := w; turns := [] |}
  | p :: l' =>
      let '(success, w') := setPreferenceOn P p preferenceName v resourceUri w in
      let t := {| called := Tier3 p; written := Some success |} in
      if success then {| ok := true; world := w'; turns := [t] |}
      else withTurn t (thirdTier l' w')
  end.

(** The second tier, over [l]; [later] collects the providers handed on to
    the third tier. *)
Fixpoint secondTier (configPath : option string) (l later : list Provider)
    (w : World) : SetResult World Provider :=
  match l with
  | [] => thirdTier later w
  | p :: l' =>
      if pathMatches configPath p then
        let '(success, w') := setPreferenceOn P p preferenceName v resourceUri w in
        let t := {| called := Tier2 p; written := Some success |} in
        if success then {| ok := true; world := w'; turns := [t] |}
        else withTurn t (secondTier configPath l' later w')
      else
        withTurn {| called := Tier2 p; written := None |}
                 (secondTier configPath l' (later ++ [p]) w)
  end.

(** The first tier, over [l]; [later] collects the providers handed on to
    the second tier. *)
Fixpoint firstTier (configPath : option string) (l later : list Provider)
    (w : World) : SetResult World Provider :=
  match l with
  | [] => secondTier configPath later [] w
  | p :: l' =>
      if hasConfigUri w p then
        let '(success, w') := setPreferenceOn P p preferenceName v resourceUri w in
        let t := {| called := Tier1 p; written := Some success |} in
        if success then {| ok := true; world := w'; turns := [t] |}
        else withTurn t (firstTier configPath l' later w')
      else
        withTurn {| called := Tier1 p; written := None |}
                 (firstTier configPath l' (later ++ [p]) w)
  end.

(** Writing to the providers of a list one after the other until one
    accepts. *)
Fixpoint writeInOrder (order : list Provider) (w : World)
    : bool * World * list (Provider * bool) :=
  match order with
  | [] => (false, w, [])
  | p :: rest =>
      let '(success, w') := setPreferenceOn P p preferenceName v resourceUri w in
      if success then (true, w', [(p, true)])
      else let '(b, w'', l) := writeInOrder rest w' in (b, w'', (p, false) :: l)
  end.

(** The candidates of a write: the folder's providers of the config name
    the preference name resolves to. *)
Definition candidates (registry : OrderedMap.t Provider) : list Provider :=
  groupOf P cfg (getFolderProviders P U registry resourceUri)
          (configNameFor cfg preferenceName).

(** The order of the search, as the code has it: the candidates with a
    config URI for the resource; then the others whose path is the shared
    [configPath]; then all the rest. *)
Definition searchOrder (w : World) (registry : OrderedMap.t Provider)
    : list Provider :=
  let configPath :=
    sharedConfigPath w (getFolderProviders P U registry resourceUri) in
  let cands := candidates registry in
  filter (hasConfigUri w) cands
  ++ filter (fun p => negb (hasConfigUri w p) && pathMatches configPath p) cands
  ++ filter (fun p => negb (hasConfigUri w p) && negb (pathMatches configPath p)) cands.

(** The order of the search in the words of the specification: (a) the
    candidates whose config file exists for the resource, (b) the
    candidates whose path is the path of any other provider that has a
    config URI for the resource, (c) the first candidate. *)
Definition specifiedOrder (w : World) (registry : OrderedMap.t Provider)
    : list Provider :=
  let providers := getFolderProviders P U registry resourceUri in
  let cands := candidates registry in
  filter (hasConfigUri w) cands
  ++ filter (fun p =>
               existsb (fun q =>
                          match getConfigUriFor P w q resourceUri with
                          | Some cu =>
                              negb (String.eqb (configUriOf P q) (configUriOf P p))
                              && String.eqb (getPath cfg (configUriOf P p)) (getPath cfg cu)
                          | None => false
                          end) providers) cands
  ++ firstn 1 cands.
End Tiers.

(** A search that stopped at its first accepted write: when it answers
    [true] the last turn is the one accepted write, when it answers [false]
    no write was accepted. *)
Definition settled {Provider} (ts : list (Turn Provider)) (b : bool) : Prop :=
  if b
  then exists pre t, ts = pre ++ [t] /\ written t = Some true /\
                     Forall (fun x => written x <> Some true) pre
  else Forall (fun x => written x <> Some true) ts.

(** What a caller and the disk see of a search: the answer, the world, and
    the writes that were attempted. *)
Definition outcome {World Provider} (res : SetResult World Provider)
    : bool * World * list (Provider * bool) :=
  (ok res, world res, attempts (turns res)).

(** ** Looking up the config URI of a resource *)

Section Lookup.
Context {World Provider Path : Type}.
Variable P : ProviderOps World Provider.
Variable U : PathOps Path.
(** [this.configurations.isConfigUri(configUri)], called on what a provider's
    [getConfigUri] returned, a URI or [undefined]. *)
Variable isConfigUri : option URI -> bool.
(** [provider.contains(resourceUri)] *)
Variable contains : World -> Provider -> option string -> bool.

(** The loop of [getConfigUri] over the folder's providers, with its
    [return]. *)
Fixpoint firstConfigUri (w : World) (resourceUri : option string)
    (providers : list Provider) : option URI :=
  match providers with
  | [] => None
  | provider :: rest =>
      let configUri := getConfigUriFor P w provider resourceUri in
      if isConfigUri configUri then configUri
      else firstConfigUri w resourceUri rest
  end.

Definition getConfigUri (w : World) (registry : OrderedMap.t Provider)
    (resourceUri : option string) : option URI :=
  firstConfigUri w resourceUri (getFolderProviders P U registry resourceUri).

(** The loop of [getContainingConfigUri], with its [return]. *)
Fixpoint firstContainingConfigUri (w : World) (resourceUri : option string)
    (providers : list Provider) : option URI :=
  match providers with
  | [] => None
  | provider :: rest =>
      let configUri := Some (configUriOf P provider) in
      if isConfigUri configUri && contains w provider resourceUri then configUri
      else firstContainingConfigUri w resourceUri rest
  end.

Definition getContainingConfigUri (w : World) (registry : OrderedMap.t Provider)
    (resourceUri : option string) : option URI :=
  firstContainingConfigUri w resourceUri (getFolderProviders P U registry resourceUri).

(** A provider answers [resolve] when it returns both a value and a config
    URI: the test [configUri && value !== undefined]. *)
Definition answers (w : World) (preferenceName : string)
    (resourceUri : option string) (provider : Provider) : bool :=
  match configUri (resolveIn P w provider preferenceName resourceUri),
        value (resolveIn P w provider preferenceName resourceUri) with
  | Some _, Some _ => true
  | _, _ => false
  end.
End Lookup.

(** ** File URIs *)

Module FileUri.
(** The characters the class [[^:/?#]] excludes. *)
Definition excluded (c : ascii) : bool :=
  Ascii.eqb c ":"%char || Ascii.eqb c "/"%char
  || Ascii.eqb c "?"%char || Ascii.eqb c "#"%char.

(** [windowsDriveRegex.exec(s)] succeeds: [/^([^:/?#]+?):$/] matches [s]. *)
Fixpoint windowsDriveRegex (s : string) : bool :=
  match s with
  | EmptyString => false
  | String c rest =>
      if excluded c then false
      else if String.eqb rest ":" then true
      else windowsDriveRegex rest
  end.

(** A drive root: one or more characters other than [:], [/], [?] and [#],
    then a colon, and nothing else. *)
Definition driveRoot (s : string) : Prop :=
  exists body, s = (body ++ ":")%string /\ body <> EmptyString /\
               forall c, In c (list_ascii_of_string body) -> excluded c = false.

(** [fsPath(uri)] for a URI object, from [uri.codeUri.fsPath] and the
    platform flag [isWindows]. *)
Definition fsPath (isWindows : bool) (fsPathFromVsCodeUri : string) : string :=
  if isWindows then
    if windowsDriveRegex fsPathFromVsCodeUri
    then (fsPathFromVsCodeUri ++ "\")%string
    else fsPathFromVsCodeUri
  else fsPathFromVsCodeUri.
End FileUri.

(** ** The sample workspace, continued *)

Module SampleLookup.
Import Sample.

(** A provider contains the resources under its folder. *)
Definition contains (w : Disk) (p : Prov) (r : option string) : bool :=
  match r with
  | None => true
  | Some res => isPrefix (segments (prov_folder p)) (segments res)
  end.

(** Config URIs are the URIs of [.json] files that exist. *)
Definition isConfigUri (w : Disk) (u : option string) : bool :=
  match u with
  | Some u => OrderedMap.has u (files w)
  | None => false
  end.

(** Every config file of [/a/b] exists and defines nothing. *)
Definition fullDisk : Disk := {|
  files := map (fun p => (prov_uri p, []))
               (getFolderProviders ops paths (providers registry) (Some resource));
  readOnly := []
|}.
End SampleLookup.

(** ** Replaying the writes of a search *)

Section Replay.
Context {World Provider : Type}.
Variable P : ProviderOps World Provider.
Variable preferenceName : string.
Variable v : JSON.
Variable resourceUri : option string.

(** The turns [ts] are what happens from world [w] on, ending in [w']: every
    turn that records an answer is a call of the provider's [setPreference]
    in the world the turns before it left, with that answer, and the turns
    that record none leave the world alone. *)
Fixpoint replays (ts : list (Turn Provider)) (w w' : World) : Prop :=
  match ts with
  | [] => w' = w
  | t :: ts' =>
      match written t with
      | None => replays ts' w w'
      | Some b =>
          exists w1,
            setPreferenceOn P (owner (called t)) preferenceName v resourceUri w = (b, w1)
            /\ replays ts' w1 w'
      end
  end.
End Replay.

(** * Properties *)

(** ** Lists, maps and sets *)

Lemma mem_true_iff k l : mem k l = true <-> In k l.
Proof.
  unfold mem. rewrite existsb_exists. split.
  - intros [x [Hin Heq]]. apply String.eqb_eq in Heq. now subst.
  - intros Hin. exists k. split; [assumption | apply String.eqb_refl].
Qed.

Lemma mem_false_iff k l : mem k l = false <-> ~ In k l.
Proof.
  rewrite <- mem_true_iff. destruct (mem k l); split; intros; easy.
Qed.

Lemma mem_app k l1 l2 : mem k (l1 ++ l2) = mem k l1 || mem k l2.
Proof. unfold mem. apply existsb_app. Qed.

Lemma filter_filter {A} (p q : A -> bool) l :
  filter p (filter q l) = filter (fun x => q x && p x) l.
Proof.
  induction l as [|x l IH]; simpl; [reflexivity|].
  destruct (q x); simpl; [destruct (p x)|]; now rewrite IH.
Qed.

Lemma filter_all {A} (p : A -> bool) l :
  (forall x, In x l -> p x = true) -> filter p l = l.
Proof.
  induction l as [|x l IH]; simpl; intros H; [reflexivity|].
  rewrite (H x) by now left. f_equal. apply IH. intros; apply H; now right.
Qed.

Lemma filter_none {A} (p : A -> bool) l :
  (forall x, In x l -> p x = false) -> filter p l = [].
Proof.
  induction l as [|x l IH]; simpl; intros H; [reflexivity|].
  rewrite (H x) by now left. apply IH. intros; apply H; now right.
Qed.

Lemma fold_left_flat_map {A B C} (f : A -> C -> A) (g : B -> list C) l a :
  fold_left f (flat_map g l) a = fold_left (fun a x => fold_left f (g x) a) l a.
Proof.
  revert a. induction l as [|x l IH]; simpl; intros a; [reflexivity|].
  now rewrite fold_left_app, IH.
Qed.

Lemma fold_left_map {A B C} (f : A -> C -> A) (g : B -> C) l a :
  fold_left f (map g l) a = fold_left (fun a x => f a (g x)) l a.
Proof. revert a. induction l; simpl; intros; [reflexivity | auto]. Qed.

Lemma fold_left_ext_in {A B} (f g : A -> B -> A) l a :
  (forall a x, In x l -> f a x = g a x) -> fold_left f l a = fold_left g l a.
Proof.
  revert a. induction l as [|x l IH]; simpl; intros a H; [reflexivity|].
  rewrite H by now left. apply IH. intros; apply H; now right.
Qed.

Module OrderedMapFacts.
Import OrderedMap.
Section Facts.
Context {V : Type}.
Implicit Types m : OrderedMap.t V.

Lemma get_none_iff k m : get k m = None <-> ~ In k (keys m).
Proof.
  induction m as [|[k' v] m IH]; simpl; [easy|].
  destruct (String.eqb_spec k' k) as [->|Hne].
  - split; [discriminate | intros H; exfalso; apply H; now left].
  - rewrite IH. split; intros H; [intros [?|?]; auto | auto].
Qed.

Lemma has_mem k m : has k m = mem k (keys m).
Proof.
  unfold has. destruct (get k m) eqn:E.
  - symmetry. apply mem_true_iff. destruct (in_dec string_dec k (keys m)); [assumption|].
    apply get_none_iff in n. congruence.
  - symmetry. apply mem_false_iff. now apply get_none_iff.
Qed.

Lemma set_absent k v m : has k m = false -> set k v m = m ++ [(k, v)].
Proof.
  rewrite has_mem, mem_false_iff.
  induction m as [|[k' v'] m IH]; simpl; intros H; [reflexivity|].
  destruct (String.eqb_spec k' k) as [->|Hne]; [exfalso; apply H; now left|].
  f_equal. apply IH. intros ?; apply H; now right.
Qed.

Lemma keys_set k v m : keys (set k v m) = if has k m then keys m else keys m ++ [k].
Proof.
  destruct (has k m) eqn:E.
  - rewrite has_mem, mem_true_iff in E.
    induction m as [|[k' v'] m IH]; simpl in *; [easy|].
    destruct (String.eqb_spec k' k) as [->|Hne]; simpl; [reflexivity|].
    f_equal. apply IH. destruct E; [contradiction | assumption].
  - rewrite set_absent by assumption. unfold keys. now rewrite map_app.
Qed.

Lemma get_set_same k v m : get k (set k v m) = Some v.
Proof.
  induction m as [|[k' v'] m IH]; simpl.
  - now rewrite String.eqb_refl.
  - destruct (String.eqb_spec k' k) as [->|Hne]; simpl.
    + now rewrite String.eqb_refl.
    + destruct (String.eqb_spec k' k); [contradiction | exact IH].
Qed.

Lemma get_set_other k k' v m : k <> k' -> get k' (set k v m) = get k' m.
Proof.
  intros Hne. induction m as [|[k0 v0] m IH]; simpl.
  - destruct (String.eqb_spec k k'); [contradiction | reflexivity].
  - destruct (String.eqb_spec k0 k) as [->|Hne0]; simpl.
    + destruct (String.eqb_spec k k'); [contradiction | reflexivity].
    + now rewrite IH.
Qed.

Lemma keys_filter (p : string -> bool) m :
  keys (filter (fun e => p (fst e)) m) = filter p (keys m).
Proof.
  induction m as [|[k v] m IH]; simpl; [reflexivity|].
  destruct (p k); simpl; now rewrite IH.
Qed.

Lemma keys_delete k m :
  keys (delete k m) = filter (fun k' => negb (String.eqb k' k)) (keys m).
Proof. unfold delete. apply (keys_filter (fun k' => negb (String.eqb k' k))). Qed.
End Facts.
End OrderedMapFacts.

(** ** The recomputation pass *)

Section RegistryFacts.
Import OrderedMap OrderedMapFacts.
Variable Provider : Type.
Variable factory : Folder -> URI -> Provider.
Implicit Types reg : Registry Provider.

Local Abbreviation visitEntry := (visitEntry Provider factory).
Local Abbreviation freshEntries := (freshEntries Provider factory).
Local Abbreviation sweep := (sweep Provider).
Local Abbreviation staleKeys := (staleKeys Provider).

(** The three nested loops are one loop over the desired set. *)
Lemma loops_flatten cfg roots (st : PassState Provider) :
  fold_left (fun st folder =>
    fold_left (fun st configPath =>
      fold_left (visit Provider factory cfg folder configPath) (configNames cfg) st)
      (getPaths cfg) st) roots st
  = fold_left visitEntry (desired cfg roots) st.
Proof.
  unfold desired. rewrite fold_left_flat_map.
  apply fold_left_ext_in. intros a folder _.
  rewrite fold_left_flat_map. apply fold_left_ext_in. intros b configPath _.
  rewrite fold_left_map. apply fold_left_ext_in. intros [td r] name _.
  reflexivity.
Qed.

Lemma desiredKeys_iff cfg roots k :
  In k (desiredKeys cfg roots) <->
  exists folder configPath configName,
    In folder roots /\ In configPath (getPaths cfg) /\
    In configName (configNames cfg) /\
    k = createUri cfg (uri folder) configPath configName.
Proof.
  unfold desiredKeys, desired. rewrite in_map_iff. split.
  - intros [[f u] [Hk Hin]]. simpl in Hk. subst u.
    apply in_flat_map in Hin as [folder [Hf Hin]].
    apply in_flat_map in Hin as [path [Hp Hin]].
    apply in_map_iff in Hin as [name [Heq Hn]].
    inversion Heq; subst. now exists f, path, name.
  - intros (folder & path & name & Hf & Hp & Hn & ->).
    exists (folder, createUri cfg (uri folder) path name). split; [reflexivity|].
    apply in_flat_map. exists folder. split; [assumption|].
    apply in_flat_map. exists path. split; [assumption|].
    apply in_map_iff. now exists name.
Qed.

Lemma freshEntries_keys_sub seen es k :
  In k (keys (freshEntries seen es)) -> In k (map snd es) /\ ~ In k seen.
Proof.
  revert seen. induction es as [|e es IH]; simpl; intros seen H; [easy|].
  destruct (mem (snd e) seen) eqn:E.
  - apply IH in H as [? ?]. auto.
  - simpl in H. destruct H as [<-|H].
    + split; [now left | now apply mem_false_iff].
    + apply IH in H as [? Hn]. split; [now right|].
      intros Hs. apply Hn. apply in_or_app. now left.
Qed.

Lemma freshEntries_covers seen es k :
  In k (map snd es) -> In k seen \/ In k (keys (freshEntries seen es)).
Proof.
  revert seen. induction es as [|e es IH]; simpl; intros seen H; [easy|].
  destruct (mem (snd e) seen) eqn:E.
  - destruct H as [<-|H]; [left; now apply mem_true_iff | now apply IH].
  - simpl. destruct H as [<-|H]; [right; now left|].
    destruct (IH (seen ++ [snd e]) H) as [Hs|Hf]; [|right; now right].
    apply in_app_or in Hs as [Hs|[<-|[]]]; [now left | right; now left].
Qed.

Lemma freshEntries_NoDup seen es :
  NoDup seen -> NoDup (seen ++ keys (freshEntries seen es)).
Proof.
  revert seen. induction es as [|e es IH]; simpl; intros seen H.
  - now rewrite app_nil_r.
  - destruct (mem (snd e) seen) eqn:E; [now apply IH|].
    simpl. change (seen ++ snd e :: keys (freshEntries (seen ++ [snd e]) es))
      with (seen ++ [snd e] ++ keys (freshEntries (seen ++ [snd e]) es)).
    rewrite app_assoc. apply IH.
    apply NoDup_app; [assumption | repeat constructor; easy |].
    intros a Ha [<-|[]]. apply mem_false_iff in E. contradiction.
Qed.

Lemma freshEntries_nil seen es :
  (forall k, In k (map snd es) -> In k seen) -> freshEntries seen es = [].
Proof.
  induction es as [|e es IH]; simpl; intros H; [reflexivity|].
  destruct (mem (snd e) seen) eqn:E.
  - apply IH. intros; apply H; now right.
  - apply mem_false_iff in E. exfalso. apply E, H. now left.
Qed.

(** The first loop in closed form. *)
Lemma create_loop es toDelete reg :
  fold_left visitEntry es (toDelete, reg) =
  (filter (fun k => negb (mem k (map snd es))) toDelete,
   {| providers := providers reg ++ freshEntries (keys (providers reg)) es;
      events := events reg
                ++ map Created (keys (freshEntries (keys (providers reg)) es)) |}).
Proof.
  revert toDelete reg. induction es as [|e es IH]; intros toDelete reg.
  - simpl. rewrite !app_nil_r. destruct reg; simpl. f_equal.
    symmetry. now apply filter_all.
  - cbn [fold_left]. unfold visitEntry at 2. cbn [freshEntries map].
    rewrite has_mem. destruct (mem (snd e) (keys (providers reg))) eqn:E.
    + rewrite IH. f_equal. unfold StringSet.delete. rewrite filter_filter.
      apply filter_ext. intros k. cbn [mem existsb map].
      now rewrite negb_orb.
    + rewrite IH. cbn [providers events]. f_equal.
      * unfold StringSet.delete. rewrite filter_filter.
        apply filter_ext. intros k. cbn [mem existsb map].
        now rewrite negb_orb.
      * rewrite set_absent by now rewrite has_mem.
        unfold keys at 1 3. rewrite map_app. cbn [map fst].
        rewrite <- !app_assoc. reflexivity.
Qed.

(** The second loop in closed form, when the keys to delete are registered
    and all different. *)
Lemma sweep_loop toDelete reg :
  NoDup toDelete ->
  (forall k, In k toDelete -> In k (keys (providers reg))) ->
  fold_left sweep toDelete reg =
  {| providers := filter (fun e => negb (mem (fst e) toDelete)) (providers reg);
     events := events reg ++ map Disposed toDelete |}.
Proof.
  revert reg. induction toDelete as [|k td IH]; intros reg Hnd Hin.
  - simpl. rewrite app_nil_r. destruct reg; simpl. f_equal.
    symmetry. now apply filter_all.
  - cbn [fold_left]. inversion Hnd as [|? ? Hk Hnd']; subst.
    unfold sweep at 2. destruct (get k (providers reg)) eqn:G.
    2:{ apply get_none_iff in G. exfalso. apply G, Hin. now left. }
    rewrite IH; [|assumption|].
    + cbn [providers events map]. f_equal.
      * unfold delete. rewrite filter_filter. apply filter_ext.
        intros e. cbn [mem existsb]. now rewrite negb_orb.
      * now rewrite <- app_assoc.
    + intros k' Hk'. cbn [providers]. rewrite keys_delete.
      apply filter_In. split; [apply Hin; now right|].
      destruct (String.eqb_spec k' k) as [->|]; [contradiction | reflexivity].
Qed.

(** A whole pass in closed form: the stale entries leave, the missing ones
    are appended in loop order; first the creations, then the disposals. *)
Lemma updateProviders_closed_form cfg roots reg :
  updateProviders factory cfg roots reg =
  {| providers :=
       filter (fun e => negb (mem (fst e) (staleKeys cfg roots reg)))
              (providers reg ++ freshEntries (keys (providers reg)) (desired cfg roots));
     events :=
       events reg
       ++ map Created (keys (freshEntries (keys (providers reg)) (desired cfg roots)))
       ++ map Disposed (staleKeys cfg roots reg) |}.
Proof.
  unfold updateProviders. rewrite loops_flatten, create_loop.
  rewrite sweep_loop.
  - cbn [providers events]. now rewrite <- app_assoc.
  - apply NoDup_filter. apply NoDup_nodup.
  - intros k Hk. apply filter_In in Hk as [Hk _].
    apply nodup_In in Hk. cbn [providers]. unfold keys. rewrite map_app.
    apply in_or_app. now left.
Qed.

Lemma staleKeys_iff cfg roots reg k :
  In k (staleKeys cfg roots reg) <->
  In k (keys (providers reg)) /\ ~ In k (desiredKeys cfg roots).
Proof.
  unfold staleKeys, StringSet.of_list. rewrite filter_In, nodup_In.
  rewrite negb_true_iff, mem_false_iff. reflexivity.
Qed.

Lemma staleKeys_NoDup cfg roots reg : NoDup (staleKeys cfg roots reg).
Proof. apply NoDup_filter, NoDup_nodup. Qed.

Lemma updateProviders_keys cfg roots reg k :
  In k (keys (providers (updateProviders factory cfg roots reg))) <->
  In k (desiredKeys cfg roots).
Proof.
  rewrite updateProviders_closed_form. cbn [providers].
  rewrite (keys_filter (fun k => negb (mem k (staleKeys cfg roots reg)))).
  rewrite filter_In, negb_true_iff, mem_false_iff, staleKeys_iff.
  unfold keys at 1. rewrite map_app, in_app_iff. fold (@keys Provider).
  split.
  - intros [[Hold|Hnew] Hns].
    + destruct (in_dec string_dec k (desiredKeys cfg roots)); [assumption|].
      exfalso. apply Hns. now split.
    + now apply freshEntries_keys_sub in Hnew as [? _].
  - intros Hd. split; [|intros [_ ?]; contradiction].
    destruct (freshEntries_covers (keys (providers reg)) (desired cfg roots) k Hd);
      [now left | now right].
Qed.

Lemma updateProviders_NoDup cfg roots reg :
  NoDup (keys (providers reg)) ->
  NoDup (keys (providers (updateProviders factory cfg roots reg))).
Proof.
  intros H. rewrite updateProviders_closed_form. cbn [providers].
  rewrite (keys_filter (fun k => negb (mem k (staleKeys cfg roots reg)))).
  apply NoDup_filter. unfold keys at 1. rewrite map_app.
  now apply freshEntries_NoDup.
Qed.

Lemma reachable_NoDup reg :
  reachable factory reg -> NoDup (keys (providers reg)).
Proof.
  induction 1; [constructor | now apply updateProviders_NoDup].
Qed.
End RegistryFacts.

Section RegistryTheorems.
Import OrderedMap OrderedMapFacts.
Variable Provider : Type.
Variable factory : Folder -> URI -> Provider.
Implicit Types reg : Registry Provider.

Local Abbreviation count := (count_occ LifecycleEvent_eq_dec).

Lemma count_Created_Created l k :
  count (map Created l) (Created k) = count_occ string_dec l k.
Proof.
  induction l as [|x l IH]; cbn [map]; [reflexivity|].
  destruct (string_dec x k) as [->|n].
  - rewrite !count_occ_cons_eq by reflexivity. now rewrite IH.
  - rewrite !count_occ_cons_neq by congruence. exact IH.
Qed.

Lemma count_Disposed_Disposed l k :
  count (map Disposed l) (Disposed k) = count_occ string_dec l k.
Proof.
  induction l as [|x l IH]; cbn [map]; [reflexivity|].
  destruct (string_dec x k) as [->|n].
  - rewrite !count_occ_cons_eq by reflexivity. now rewrite IH.
  - rewrite !count_occ_cons_neq by congruence. exact IH.
Qed.

Lemma count_Created_Disposed l k : count (map Created l) (Disposed k) = 0.
Proof.
  induction l as [|x l IH]; cbn [map]; [reflexivity|].
  rewrite count_occ_cons_neq by discriminate. exact IH.
Qed.

Lemma count_Disposed_Created l k : count (map Disposed l) (Created k) = 0.
Proof.
  induction l as [|x l IH]; cbn [map]; [reflexivity|].
  rewrite count_occ_cons_neq by discriminate. exact IH.
Qed.

Lemma count_NoDup l k :
  NoDup l -> count_occ string_dec l k = if mem k l then 1 else 0.
Proof.
  intros H. destruct (mem k l) eqn:E.
  - apply mem_true_iff in E. apply NoDup_count_occ' with (decA := string_dec) in E; assumption.
  - apply mem_false_iff in E. now apply count_occ_not_In.
Qed.

Lemma mem_staleKeys cfg roots reg k :
  mem k (staleKeys Provider cfg roots reg) =
  mem k (keys (providers reg)) && negb (mem k (desiredKeys cfg roots)).
Proof.
  apply eq_true_iff_eq.
  rewrite andb_true_iff, negb_true_iff, mem_false_iff, !mem_true_iff.
  apply staleKeys_iff.
Qed.

Lemma mem_freshEntries seen es k :
  mem k (keys (freshEntries Provider factory seen es)) =
  negb (mem k seen) && mem k (map snd es).
Proof.
  apply eq_true_iff_eq.
  rewrite andb_true_iff, negb_true_iff, mem_false_iff, !mem_true_iff. split.
  - intros H. apply freshEntries_keys_sub in H. tauto.
  - intros [Hs He]. destruct (freshEntries_covers Provider factory seen es k He); tauto.
Qed.

Lemma mem_updateProviders cfg roots reg k :
  mem k (keys (providers (updateProviders factory cfg roots reg))) =
  mem k (desiredKeys cfg roots).
Proof. apply eq_true_iff_eq. rewrite !mem_true_iff. apply updateProviders_keys. Qed.

Lemma freshEntries_keys_NoDup seen es :
  NoDup seen -> NoDup (keys (freshEntries Provider factory seen es)).
Proof.
  intros H. apply (freshEntries_NoDup Provider factory seen es) in H.
  now apply NoDup_app_remove_l in H.
Qed.

(** Over the whole life of a registry, every key was created once more than
    it was disposed if it is registered, and as often if it is not. *)
Lemma reachable_balance reg :
  reachable factory reg ->
  forall k, count (events reg) (Created k) =
            count (events reg) (Disposed k)
            + (if mem k (keys (providers reg)) then 1 else 0).
Proof.
  induction 1 as [|cfg roots reg Hr IH]; intros k; [reflexivity|].
  rewrite mem_updateProviders. rewrite updateProviders_closed_form.
  cbn [events]. rewrite !count_occ_app.
  rewrite count_Created_Created, count_Disposed_Created,
    count_Created_Disposed, count_Disposed_Disposed.
  rewrite (count_NoDup _ k (staleKeys_NoDup Provider cfg roots reg)).
  rewrite (count_NoDup _ k (freshEntries_keys_NoDup _ _ (reachable_NoDup _ _ _ Hr))).
  rewrite mem_staleKeys, mem_freshEntries. specialize (IH k).
  fold (desiredKeys cfg roots).
  destruct (mem k (keys (providers reg))), (mem k (desiredKeys cfg roots));
    simpl; lia.
Qed.

(** C5. [updateProviders] is idempotent: a second pass with the same roots
    and the same configuration leaves the registry as it is and adds no
    event to the trace, that is, it creates no provider and disposes
    none. *)
Theorem updateProviders_idempotent cfg roots reg :
  let once := updateProviders factory cfg roots reg in
  let twice := updateProviders factory cfg roots once in
  providers twice = providers once /\ events twice = events once.
Proof.
  intros once twice. subst twice.
  assert (Hstale : staleKeys Provider cfg roots once = []).
  { apply filter_none. intros k Hk. apply nodup_In in Hk.
    apply (updateProviders_keys Provider factory) in Hk.
    apply mem_true_iff in Hk. now rewrite Hk. }
  assert (Hfresh : freshEntries Provider factory (keys (providers once))
                     (desired cfg roots) = []).
  { apply freshEntries_nil. intros k Hk.
    now apply (updateProviders_keys Provider factory). }
  rewrite updateProviders_closed_form. cbn [providers events].
  rewrite Hstale, Hfresh. cbn [keys map]. rewrite !app_nil_r. split; [|reflexivity].
  now apply filter_all.
Qed.

(** C6. After a recomputation pass on a registry the program can be in,
    the registry holds at most one provider per Config Identity Key; every
    registered key is the key of a (folder, path, name) combination of the
    current roots and configuration, and every such key is registered; the
    pass disposes each provider whose key was registered and is no longer
    desired exactly once, and disposes nothing else; and over the whole
    trace each key was created exactly once more than it was disposed
    while it is registered, and exactly as often once it is not. *)
Theorem updateProviders_no_orphans cfg roots reg :
  reachable factory reg ->
  let reg' := updateProviders factory cfg roots reg in
  NoDup (keys (providers reg'))
  /\ (forall k, In k (keys (providers reg')) <->
        exists folder configPath configName,
          In folder roots /\ In configPath (getPaths cfg) /\
          In configName (getSectionNames cfg ++ [getConfigName cfg]) /\
          k = createUri cfg (uri folder) configPath configName)
  /\ (exists pass,
        events reg' = events reg ++ pass /\
        forall k, count pass (Disposed k) =
                  if mem k (keys (providers reg)) && negb (mem k (desiredKeys cfg roots))
                  then 1 else 0)
  /\ (forall k, count (events reg') (Created k) =
                count (events reg') (Disposed k)
                + (if mem k (keys (providers reg')) then 1 else 0)).
Proof.
  intros Hr reg'. split; [|split; [|split]].
  - apply updateProviders_NoDup. now apply (reachable_NoDup _ factory).
  - intros k. subst reg'. rewrite updateProviders_keys. apply desiredKeys_iff.
  - subst reg'. rewrite updateProviders_closed_form. cbn [events].
    eexists. split; [reflexivity|]. intros k.
    rewrite count_occ_app, count_Created_Disposed, count_Disposed_Disposed.
    rewrite (count_NoDup _ k (staleKeys_NoDup Provider cfg roots reg)).
    now rewrite mem_staleKeys.
  - apply reachable_balance. now constructor.
Qed.
End RegistryTheorems.

(** ** The folder selector *)

Section SelectorFacts.
Import OrderedMap OrderedMapFacts.
Context {World Provider Path : Type}.
Variable P : ProviderOps World Provider.
Variable U : PathOps Path.
Local Open Scope Z_scope.

Local Abbreviation rel := (relativityTo P U).
Local Abbreviation start :=
  {| best_relativity := MAX_SAFE_INTEGER; best_uri := None |}.

Lemma scan_fst rp folder groups provider :
  fst (scan P U rp (folder, groups) provider) = pick P U rp folder provider.
Proof.
  unfold pick, scan.
  destruct ((0 <=? _) && (_ <? _))%bool; reflexivity.
Qed.

Lemma pick_eq r folder provider :
  pick P U (pathOf U r) folder provider =
  if ((0 <=? rel r provider) && (rel r provider <? best_relativity folder))%bool
  then {| best_relativity := rel r provider;
          best_uri := Some (folderUri P provider) |}
  else folder.
Proof.
  unfold pick, scan, relativityTo.
  destruct ((0 <=? _) && (_ <? _))%bool; reflexivity.
Qed.

Lemma scan_snd rp folder groups provider :
  snd (scan P U rp (folder, groups) provider) =
  set (folderUri P provider)
      (orEmpty (get (folderUri P provider) groups) ++ [provider]) groups.
Proof.
  unfold scan, orEmpty.
  destruct ((0 <=? _) && (_ <? _))%bool; reflexivity.
Qed.

(** The loop keeps the best folder and the buckets independently. *)
Lemma scan_fold_fst rp l folder groups :
  fst (fold_left (scan P U rp) l (folder, groups)) =
  fold_left (pick P U rp) l folder.
Proof.
  revert folder groups. induction l as [|x l IH]; intros folder groups; [reflexivity|].
  cbn [fold_left].
  destruct (scan P U rp (folder, groups) x) as [f g] eqn:E.
  rewrite IH. f_equal.
  change f with (fst (f, g)). rewrite <- E. apply scan_fst.
Qed.

(** Each bucket holds the providers of its folder, in iteration order. *)
Lemma scan_fold_snd rp l u :
  orEmpty (get u (snd (fold_left (scan P U rp) l (start, empty)))) =
  filter (fun p => String.eqb (folderUri P p) u) l.
Proof.
  induction l as [|x l IH] using rev_ind; [reflexivity|].
  rewrite fold_left_app. cbn [fold_left].
  destruct (fold_left (scan P U rp) l (start, empty)) as [f g].
  rewrite scan_snd, filter_app. cbn [filter snd] in *.
  destruct (String.eqb_spec (folderUri P x) u) as [->|Hne].
  - rewrite get_set_same. cbn [orEmpty] in *. now rewrite IH.
  - rewrite get_set_other by assumption. now rewrite IH, app_nil_r.
Qed.

(** While only worse or unrelated folders go by, the best stays above a
    bound. *)
Lemma pick_above r bound l folder :
  bound < best_relativity folder ->
  (forall q, In q l -> rel r q < 0 \/ bound < rel r q) ->
  bound < best_relativity (fold_left (pick P U (pathOf U r)) l folder).
Proof.
  revert folder. induction l as [|x l IH]; intros folder Hb Hl; [assumption|].
  cbn [fold_left]. apply IH; [|intros; apply Hl; now right].
  rewrite pick_eq.
  destruct (Z.leb_spec 0 (rel r x)); [|assumption].
  destruct (Z.ltb_spec (rel r x) (best_relativity folder)); [|assumption].
  cbn. destruct (Hl x (or_introl eq_refl)); lia.
Qed.

(** Once a folder is the best, equal and worse scores do not replace it. *)
Lemma pick_keeps r l folder :
  (forall q, In q l -> rel r q < 0 \/ best_relativity folder <= rel r q) ->
  fold_left (pick P U (pathOf U r)) l folder = folder.
Proof.
  induction l as [|x l IH]; intros Hl; [reflexivity|].
  cbn [fold_left]. rewrite pick_eq.
  destruct (Z.leb_spec 0 (rel r x)); cbn [andb].
  - destruct (Z.ltb_spec (rel r x) (best_relativity folder)).
    + destruct (Hl x (or_introl eq_refl)); lia.
    + apply IH. intros; apply Hl; now right.
  - apply IH. intros; apply Hl; now right.
Qed.

(** The first provider, in iteration order, with the smallest non-negative
    score decides. *)
Lemma pick_first_best r l1 p l2 :
  0 <= rel r p < MAX_SAFE_INTEGER ->
  (forall q, In q l1 -> rel r q < 0 \/ rel r p < rel r q) ->
  (forall q, In q l2 -> rel r q < 0 \/ rel r p <= rel r q) ->
  fold_left (pick P U (pathOf U r)) (l1 ++ p :: l2) start =
  {| best_relativity := rel r p; best_uri := Some (folderUri P p) |}.
Proof.
  intros Hp H1 H2. rewrite fold_left_app. cbn [fold_left].
  pose proof (pick_above r (rel r p) l1 start) as Ha.
  cbn [best_relativity] in Ha. specialize (Ha (proj2 Hp) H1).
  rewrite pick_eq.
  destruct (Z.leb_spec 0 (rel r p)); [|lia].
  destruct (Z.ltb_spec (rel r p)
              (best_relativity (fold_left (pick P U (pathOf U r)) l1 start))); [|lia].
  cbn [andb]. now apply pick_keeps.
Qed.

(** When scores stay below [MAX_SAFE_INTEGER]: either no provider has a
    non-negative score, or some provider comes first among those with the
    smallest one. *)
Lemma first_best_exists r l :
  (forall q, In q l -> rel r q < MAX_SAFE_INTEGER) ->
  (forall q, In q l -> rel r q < 0) \/
  exists l1 p l2,
    l = l1 ++ p :: l2 /\ 0 <= rel r p /\
    (forall q, In q l1 -> rel r q < 0 \/ rel r p < rel r q) /\
    (forall q, In q l2 -> rel r q < 0 \/ rel r p <= rel r q).
Proof.
  induction l as [|x l IH] using rev_ind; intros Hb; [left; easy|].
  assert (Hb' : forall q, In q l -> rel r q < MAX_SAFE_INTEGER).
  { intros; apply Hb, in_or_app; now left. }
  destruct (IH Hb') as [Hnone | (l1 & p & l2 & -> & Hp & H1 & H2)].
  - destruct (Z.ltb_spec (rel r x) 0) as [Hx|Hx].
    + left. intros q Hq. apply in_app_or in Hq as [Hq|[<-|[]]]; auto.
    + right. exists l, x, []. repeat split; [assumption| |easy].
      intros q Hq. left. now apply Hnone.
  - right.
    destruct (Z.ltb_spec (rel r x) 0) as [Hx|Hx];
      [|destruct (Z.ltb_spec (rel r x) (rel r p)) as [Hlt|Hge]].
    + exists l1, p, (l2 ++ [x]). rewrite <- app_assoc. repeat split; try assumption.
      intros q Hq. apply in_app_or in Hq as [Hq|[<-|[]]]; auto.
    + exists (l1 ++ p :: l2), x, []. repeat split; [assumption| |easy].
      intros q Hq. apply in_app_or in Hq as [Hq|[<-|Hq]].
      * destruct (H1 q Hq); [left | right]; lia.
      * right; lia.
      * destruct (H2 q Hq); [left | right]; lia.
    + exists l1, p, (l2 ++ [x]). rewrite <- app_assoc. repeat split; try assumption.
      intros q Hq. apply in_app_or in Hq as [Hq|[<-|[]]]; auto.
Qed.

Lemma pick_none r l :
  (forall q, In q l -> rel r q < 0) ->
  fold_left (pick P U (pathOf U r)) l start = start.
Proof. intros H. apply pick_keeps. intros q Hq. left. now apply H. Qed.

(** [getFolderProviders] for a resource that is given, from the outcome of
    the loop. *)
Lemma getFolderProviders_given registry r :
  r <> ""%string ->
  getFolderProviders P U registry (Some r) =
  match best_uri (fold_left (pick P U (pathOf U r)) (values registry) start) with
  | Some u => if String.eqb u "" then [] else providersOf P u registry
  | None => []
  end.
Proof.
  intros Hr. unfold getFolderProviders.
  destruct (String.eqb_spec r ""); [contradiction|].
  pose proof (scan_fold_fst (pathOf U r) (values registry) start empty) as Hf.
  pose proof (scan_fold_snd (pathOf U r) (values registry)) as Hs.
  destruct (fold_left (scan P U (pathOf U r)) (values registry) (start, empty))
    as [folder groups].
  cbn [fst snd] in Hf, Hs. rewrite <- Hf.
  destruct (best_uri folder) as [u|]; [|reflexivity].
  destruct (String.eqb u ""); [reflexivity|].
  unfold providersOf. rewrite <- Hs. reflexivity.
Qed.
End SelectorFacts.

Section SelectorTheorems.
Import OrderedMap OrderedMapFacts.
Context {World Provider Path : Type}.
Variable P : ProviderOps World Provider.
Variable U : PathOps Path.
Local Open Scope Z_scope.

Local Abbreviation rel := (relativityTo P U).

(** The outcome of the selector when the position of the first provider
    with the smallest non-negative score is known. *)
Lemma getFolderProviders_first_best
    (registry : OrderedMap.t Provider) (r : string) l1 p l2 :
  r <> ""%string ->
  values registry = l1 ++ p :: l2 ->
  folderUri P p <> ""%string ->
  0 <= rel r p < MAX_SAFE_INTEGER ->
  (forall q, In q l1 -> rel r q < 0 \/ rel r p < rel r q) ->
  (forall q, In q l2 -> rel r q < 0 \/ rel r p <= rel r q) ->
  getFolderProviders P U registry (Some r) = providersOf P (folderUri P p) registry.
Proof.
  intros Hr Hv Hne Hp H1 H2.
  rewrite getFolderProviders_given by assumption.
  rewrite Hv, pick_first_best by assumption. cbn [best_uri].
  destruct (String.eqb_spec (folderUri P p) ""); [contradiction | reflexivity].
Qed.

(** C9. Among the providers with the smallest non-negative score, the one
    that comes first in the iteration order of the registry decides: when
    every provider before [p] has a negative or a strictly larger score and
    every provider after it a negative, equal or larger one, the selector
    returns the providers of [p]'s folder. An equal score later in the
    registry does not replace the winner: a later provider of another folder
    is not returned, whatever its score. *)
Theorem getFolderProviders_first_registered_wins
    (registry : OrderedMap.t Provider) (r : string) l1 p l2 :
  r <> ""%string ->
  values registry = l1 ++ p :: l2 ->
  folderUri P p <> ""%string ->
  0 <= rel r p < MAX_SAFE_INTEGER ->
  (forall q, In q l1 -> rel r q < 0 \/ rel r p < rel r q) ->
  (forall q, In q l2 -> rel r q < 0 \/ rel r p <= rel r q) ->
  getFolderProviders P U registry (Some r) = providersOf P (folderUri P p) registry
  /\ In p (getFolderProviders P U registry (Some r))
  /\ (forall q, In q l2 -> folderUri P q <> folderUri P p ->
                ~ In q (getFolderProviders P U registry (Some r))).
Proof.
  intros Hr Hv Hne Hp H1 H2.
  rewrite (getFolderProviders_first_best registry r l1 p l2) by assumption.
  split; [reflexivity|]. unfold providersOf. split.
  - apply filter_In. split; [|apply String.eqb_refl].
    rewrite Hv. apply in_or_app. right. now left.
  - intros q _ Hq Hin. apply filter_In in Hin as [_ Hin].
    apply String.eqb_eq in Hin. contradiction.
Qed.

(** C3. For registries whose folder URIs are non-empty strings and whose
    scores stay below [MAX_SAFE_INTEGER]: without a resource URI (absent or
    the empty string) the selector returns the empty list; when no provider
    has a non-negative score it returns the empty list; otherwise it
    returns exactly the providers of one folder, in registry order, and
    that folder has the smallest non-negative score of all, so every
    provider returned has a non-negative score. *)
Theorem getFolderProviders_most_specific
    (registry : OrderedMap.t Provider) (resourceUri : option string) :
  (forall p, In p (values registry) -> folderUri P p <> ""%string) ->
  (forall p r, resourceUri = Some r -> In p (values registry) ->
               rel r p < MAX_SAFE_INTEGER) ->
  (resourceUri = None \/ resourceUri = Some ""%string ->
     getFolderProviders P U registry resourceUri = [])
  /\ (forall r, resourceUri = Some r -> r <> ""%string ->
        (forall p, In p (values registry) -> rel r p < 0) ->
        getFolderProviders P U registry resourceUri = [])
  /\ (forall r, resourceUri = Some r -> r <> ""%string ->
        (exists p, In p (values registry) /\ 0 <= rel r p) ->
        exists winner,
          In winner (values registry) /\ 0 <= rel r winner
          /\ (forall q, In q (values registry) -> 0 <= rel r q ->
                        rel r winner <= rel r q)
          /\ getFolderProviders P U registry resourceUri
             = providersOf P (folderUri P winner) registry
          /\ (forall q, In q (getFolderProviders P U registry resourceUri) ->
                        folderUri P q = folderUri P winner /\ 0 <= rel r q)).
Proof.
  intros Hne Hb. split; [|split].
  - intros [->| ->]; reflexivity.
  - intros r -> Hr Hneg. rewrite getFolderProviders_given by assumption.
    now rewrite pick_none.
  - intros r -> Hr [p0 [Hin0 Hp0]].
    destruct (first_best_exists P U r (values registry)) as
      [Hnone | (l1 & p & l2 & Hv & Hp & H1 & H2)].
    { intros q Hq. now apply Hb. }
    { specialize (Hnone p0 Hin0). lia. }
    assert (Hin : In p (values registry)).
    { rewrite Hv. apply in_or_app. right. now left. }
    assert (Heq : getFolderProviders P U registry (Some r)
                  = providersOf P (folderUri P p) registry).
    { apply getFolderProviders_first_best with (l1 := l1) (l2 := l2); auto. }
    exists p. repeat split; try assumption.
    + intros q Hq Hq0. rewrite Hv in Hq.
      apply in_app_or in Hq as [Hq|[<-|Hq]].
      * destruct (H1 q Hq); lia.
      * lia.
      * destruct (H2 q Hq); lia.
    + rewrite Heq in H. unfold providersOf in H.
      apply filter_In in H as [_ H]. now apply String.eqb_eq in H.
    + rewrite Heq in H. unfold providersOf in H.
      apply filter_In in H as [_ H]. apply String.eqb_eq in H.
      unfold relativityTo in *. now rewrite H.
Qed.
End SelectorTheorems.

(** ** Groups and reads *)

Lemma distinctFrom_fresh seen names :
  NoDup (seen ++ names) -> distinctFrom seen names = names.
Proof.
  revert seen. induction names as [|n names IH]; intros seen H; [reflexivity|].
  cbn [distinctFrom].
  assert (Hn : mem n seen = false).
  { apply mem_false_iff. intros Hin. apply NoDup_remove_2 in H.
    apply H. apply in_or_app. now left. }
  rewrite Hn. f_equal. apply IH. now rewrite <- app_assoc.
Qed.

Lemma distinctFrom_spec seen names k :
  In k (distinctFrom seen names) <-> In k names /\ ~ In k seen.
Proof.
  revert seen. induction names as [|n names IH]; intros seen; cbn [distinctFrom].
  - simpl. tauto.
  - destruct (mem n seen) eqn:E.
    + rewrite IH. apply mem_true_iff in E. simpl. split; [tauto|].
      intros [[<-|H] Hs]; [contradiction | tauto].
    + apply mem_false_iff in E. simpl. rewrite IH, in_app_iff. simpl.
      split.
      * intros [<-|[H Hs]]; [tauto|]. split; [tauto|]. intros ?. apply Hs. now left.
      * intros [[<-|H] Hs]; [now left|].
        destruct (string_dec n k) as [->|Hne]; [now left|]. right. split; [assumption|].
        intros [?|[?|[]]]; [contradiction | contradiction].
Qed.

Lemma distinctFrom_NoDup seen names : NoDup (distinctFrom seen names).
Proof.
  revert seen. induction names as [|n names IH]; intros seen; cbn [distinctFrom].
  - constructor.
  - destruct (mem n seen); [apply IH|]. constructor; [|apply IH].
    rewrite distinctFrom_spec. intros [_ H]. apply H. apply in_or_app. right. now left.
Qed.

Section GroupFacts.
Import OrderedMap OrderedMapFacts.
Context {World Provider Path : Type}.
Variable P : ProviderOps World Provider.
Variable U : PathOps Path.
Variable cfg : PreferenceConfigurations.

Lemma set_known {V} (f : string -> V) seen n :
  In n seen -> set n (f n) (map (fun k => (k, f k)) seen) = map (fun k => (k, f k)) seen.
Proof.
  induction seen as [|k seen IH]; intros H; [easy|]. cbn [map set].
  destruct (String.eqb_spec k n) as [->|Hne]; [reflexivity|].
  f_equal. apply IH. destruct H; [contradiction | assumption].
Qed.

Lemma set_loop {V} (f : string -> V) names seen :
  fold_left (fun groups n => set n (f n) groups) names (map (fun k => (k, f k)) seen)
  = map (fun k => (k, f k)) (seen ++ distinctFrom seen names).
Proof.
  revert seen. induction names as [|n names IH]; intros seen; cbn [fold_left distinctFrom].
  - now rewrite app_nil_r.
  - destruct (mem n seen) eqn:E.
    + apply mem_true_iff in E. rewrite set_known by assumption. apply IH.
    + rewrite set_absent.
      * change [(n, f n)] with (map (fun k => (k, f k)) [n]).
        rewrite <- map_app, IH, <- app_assoc. reflexivity.
      * rewrite has_mem. unfold keys. rewrite map_map. cbn [fst]. now rewrite map_id.
Qed.

(** The grouping in closed form: one group per name, the names at their
    first occurrence in [[getConfigName(), ...getSectionNames()]]. *)
Lemma groups_closed_form registry resourceUri :
  groupProvidersByConfigName P U cfg registry resourceUri =
  map (fun n => (n, groupOf P cfg (getFolderProviders P U registry resourceUri) n))
      (distinct (getConfigName cfg :: getSectionNames cfg)).
Proof.
  unfold groupProvidersByConfigName, distinct.
  exact (set_loop (groupOf P cfg (getFolderProviders P U registry resourceUri))
                  (getConfigName cfg :: getSectionNames cfg) []).
Qed.

Lemma groups_values registry resourceUri :
  values (groupProvidersByConfigName P U cfg registry resourceUri) =
  map (groupOf P cfg (getFolderProviders P U registry resourceUri))
      (distinct (getConfigName cfg :: getSectionNames cfg)).
Proof. rewrite groups_closed_form. unfold values. now rewrite map_map. Qed.

Lemma distinct_names :
  distinct (getConfigName cfg :: getSectionNames cfg) =
  getConfigName cfg :: distinctFrom [getConfigName cfg] (getSectionNames cfg).
Proof. reflexivity. Qed.

Lemma resolveGroup_first w name r result group :
  resolveGroup P w name r result group =
  match firstContribution P w name r group with
  | Some (v, cu) => {| value := Some (merge (value result) v); configUri := Some cu |}
  | None => result
  end.
Proof.
  induction group as [|p group IH]; [reflexivity|]. cbn [resolveGroup firstContribution].
  destruct (configUri (resolveIn P w p name r)); [|exact IH].
  destruct (value (resolveIn P w p name r)); [reflexivity | exact IH].
Qed.

Lemma preferencesGroup_first w r result group :
  preferencesGroup P w r result group =
  match firstPreferences P w r group with
  | Some prefs => merge (Some result) (JObj prefs)
  | None => result
  end.
Proof.
  induction group as [|p group IH]; [reflexivity|].
  cbn [preferencesGroup firstPreferences].
  destruct (getConfigUriFor P w p r); [reflexivity | exact IH].
Qed.

(** Groups that contribute nothing leave the result of [resolve] alone. *)
Lemma resolve_skip w name r providers names result :
  (forall n, In n names ->
     firstContribution P w name r (groupOf P cfg providers n) = None) ->
  fold_left (resolveGroup P w name r) (map (groupOf P cfg providers) names) result
  = result.
Proof.
  revert result. induction names as [|n names IH]; intros result H; [reflexivity|].
  cbn [map fold_left]. rewrite resolveGroup_first, H by now left.
  apply IH. intros; apply H; now right.
Qed.
End GroupFacts.

(** ** The merge *)

Section MergeFacts.
Import OrderedMap OrderedMapFacts.

Lemma mergeValue_objects a b : mergeValue (JObj a) (JObj b) = JObj (mergeFields a b).
Proof.
  cbn [mergeValue]. f_equal. unfold mergeFields.
  revert a. induction b as [|[k v] b IH]; intros a; [reflexivity|].
  cbn [fold_left fst snd]. apply IH.
Qed.

Lemma mergeValue_override x y :
  isObject x = false \/ isObject y = false -> mergeValue x y = y.
Proof.
  intros [H|H].
  - destruct y; try reflexivity. destruct x; try reflexivity. discriminate.
  - destruct y; try reflexivity. discriminate.
Qed.

Lemma get_assign k k' f v (a : list (string * JSON)) :
  get k (assign k' f v a) =
  if String.eqb k' k
  then Some (match get k a with Some old => f old | None => v end)
  else get k a.
Proof.
  induction a as [|[k0 old] a IH]; cbn [assign get].
  - destruct (String.eqb k' k); reflexivity.
  - destruct (String.eqb_spec k0 k') as [->|Hne]; cbn [get].
    + destruct (String.eqb k' k); reflexivity.
    + rewrite IH. destruct (String.eqb_spec k0 k) as [->|Hne'].
      * destruct (String.eqb_spec k' k); [congruence | reflexivity].
      * reflexivity.
Qed.

Lemma get_mergeFields_absent k a b :
  ~ In k (keys b) -> get k (mergeFields a b) = get k a.
Proof.
  unfold mergeFields. revert a.
  induction b as [|[k' v] b IH]; intros a H; [reflexivity|].
  cbn [fold_left fst snd]. rewrite IH by (intros ?; apply H; now right).
  rewrite get_assign. destruct (String.eqb_spec k' k) as [->|]; [|reflexivity].
  exfalso. apply H. now left.
Qed.

Lemma get_mergeFields_present k a b y :
  NoDup (keys b) -> get k b = Some y ->
  get k (mergeFields a b) =
  Some (match get k a with Some x => mergeValue x y | None => y end).
Proof.
  unfold mergeFields. revert a.
  induction b as [|[k' v] b IH]; intros a Hnd Hy; [discriminate|].
  cbn [keys map fst] in Hnd. inversion Hnd as [|? ? Hk Hnd']; subst.
  cbn [get] in Hy. cbn [fold_left fst snd].
  destruct (String.eqb_spec k' k) as [->|Hne].
  - inversion Hy; subst.
    change (fold_left _ b ?x) with (mergeFields x b).
    rewrite get_mergeFields_absent by assumption.
    rewrite get_assign, String.eqb_refl. reflexivity.
  - rewrite (IH _ Hnd' Hy). rewrite get_assign.
    destruct (String.eqb_spec k' k); [contradiction | reflexivity].
Qed.

(** Field by field: a key of one side only keeps its value, a key of both
    sides takes the merge of the two values. *)
Lemma get_mergeFields k a b :
  NoDup (keys b) ->
  get k (mergeFields a b) =
  match get k a, get k b with
  | Some x, Some y => Some (mergeValue x y)
  | None, Some y => Some y
  | x, None => x
  end.
Proof.
  intros Hnd. destruct (get k b) as [y|] eqn:E.
  - rewrite (get_mergeFields_present k a b y Hnd E). now destruct (get k a).
  - apply get_none_iff in E. rewrite get_mergeFields_absent by assumption.
    now destruct (get k a).
Qed.
End MergeFacts.

Section ReadTheorems.
Import OrderedMap OrderedMapFacts.
Context {World Provider Path : Type}.
Variable P : ProviderOps World Provider.
Variable U : PathOps Path.
Variable cfg : PreferenceConfigurations.

Lemma getPreferences_fold w registry r :
  getPreferences P U cfg w registry r =
  fold_left (fun acc prefs => merge (Some acc) (JObj prefs))
            (contributions P U cfg w registry r) (JObj []).
Proof.
  unfold getPreferences, contributions. rewrite fold_left_flat_map.
  apply fold_left_ext_in. intros acc group _.
  rewrite preferencesGroup_first.
  destruct (firstPreferences P w r group); reflexivity.
Qed.

Lemma merge_fold_object l acc :
  exists fields,
    fold_left (fun acc prefs => merge (Some acc) (JObj prefs)) l (JObj acc)
    = JObj fields.
Proof.
  revert acc. induction l as [|c l IH]; intros acc; [now exists acc|].
  cbn [fold_left merge]. rewrite mergeValue_objects. apply IH.
Qed.

(** C1, as the code has it. The groups are one per config name, in the
    order in which [groupProvidersByConfigName] enumerates the names: the
    default config name first, then the section names in their declared
    order, a name that occurs again keeping its first place; each group
    holds the folder's providers of that name in selector order; [resolve]
    and [getPreferences] walk the groups in this order. When the names are
    pairwise different the order is the default name followed by the
    declared section names. *)
Theorem groups_walked_default_first w registry preferenceName resourceUri :
  let folderProviders := getFolderProviders P U registry resourceUri in
  let names := getConfigName cfg :: distinctFrom [getConfigName cfg] (getSectionNames cfg) in
  groupProvidersByConfigName P U cfg registry resourceUri
    = map (fun n => (n, groupOf P cfg folderProviders n)) names
  /\ resolve P U cfg w registry preferenceName resourceUri
     = fold_left (resolveGroup P w preferenceName resourceUri)
         (map (groupOf P cfg folderProviders) names)
         {| value := None; configUri := None |}
  /\ getPreferences P U cfg w registry resourceUri
     = fold_left (preferencesGroup P w resourceUri)
         (map (groupOf P cfg folderProviders) names) (JObj [])
  /\ (NoDup (getConfigName cfg :: getSectionNames cfg) ->
      names = getConfigName cfg :: getSectionNames cfg).
Proof.
  intros folderProviders names. split; [|split; [|split]].
  - apply groups_closed_form.
  - unfold resolve. now rewrite groups_values.
  - unfold getPreferences. now rewrite groups_values.
  - intros H. subst names. f_equal. now apply distinctFrom_fresh.
Qed.

(** C2, as the code has it. When the first contributing provider of the
    default group answers [vd] and the first contributing provider of the
    group of section [s] answers [vs] from config URI [us], and no other
    group contributes, [resolve] returns what [PreferenceProvider.merge]
    makes of the two values, the default's merged first and the section's
    merged into it, together with the section's config URI. *)
Theorem resolve_section_overrides_default w registry preferenceName resourceUri
    s vd ud vs us :
  let folderProviders := getFolderProviders P U registry resourceUri in
  let contribution n :=
    firstContribution P w preferenceName resourceUri (groupOf P cfg folderProviders n) in
  In s (getSectionNames cfg) -> s <> getConfigName cfg ->
  contribution (getConfigName cfg) = Some (vd, ud) ->
  contribution s = Some (vs, us) ->
  (forall n, In n (getSectionNames cfg) -> n <> s -> contribution n = None) ->
  resolve P U cfg w registry preferenceName resourceUri
    = {| value := Some (merge (Some (merge None vd)) vs); configUri := Some us |}.
Proof.
  intros folderProviders contribution Hs Hne Hd Hsec Hother.
  unfold resolve. rewrite groups_values, distinct_names.
  fold folderProviders. cbn [map fold_left].
  rewrite resolveGroup_first. fold (contribution (getConfigName cfg)). rewrite Hd.
  cbn [value].
  assert (Hin : In s (distinctFrom [getConfigName cfg] (getSectionNames cfg))).
  { apply distinctFrom_spec. split; [assumption|]. intros [?|[]]. congruence. }
  pose proof (distinctFrom_NoDup [getConfigName cfg] (getSectionNames cfg)) as Hnd.
  apply in_split in Hin as [before [after Heq]]. rewrite Heq in Hnd |- *.
  assert (Hskip : forall n, In n before \/ In n after -> contribution n = None).
  { intros n Hn. apply Hother.
    - assert (Hd' : In n (distinctFrom [getConfigName cfg] (getSectionNames cfg))).
      { rewrite Heq. apply in_or_app. destruct Hn; [now left | right; now right]. }
      now apply distinctFrom_spec in Hd' as [? _].
    - intros ->. apply NoDup_remove_2 in Hnd. apply Hnd.
      apply in_or_app. assumption. }
  rewrite map_app, fold_left_app. cbn [map fold_left].
  rewrite (resolve_skip P cfg w preferenceName resourceUri folderProviders before)
    by (intros n Hn; apply Hskip; now left).
  rewrite resolveGroup_first. fold (contribution s). rewrite Hsec. cbn [value].
  apply resolve_skip. intros n Hn. apply Hskip. now right.
Qed.

(** C7. [getPreferences] folds the merge over the contributions of the
    groups, each the whole preference mapping of the group's first provider
    with a config URI for the resource, in the order of the walk, starting
    from the empty object; the result is an object. The merge of the spec
    unions the keys that only one side has and gives an overlapping key the
    merge of both values, which is the later value unless both are objects.
    In particular the contributions [{x:1}] and [{y:2}] of two groups give
    [{x:1, y:2}]. *)
Theorem getPreferences_merges_groups w registry resourceUri :
  getPreferences P U cfg w registry resourceUri
    = fold_left (fun acc prefs => merge (Some acc) (JObj prefs))
        (contributions P U cfg w registry resourceUri) (JObj [])
  /\ (exists fields, getPreferences P U cfg w registry resourceUri = JObj fields)
  /\ (forall acc prefs,
        merge (Some (JObj acc)) (JObj prefs) = JObj (mergeFields acc prefs))
  /\ (forall acc prefs k, NoDup (keys prefs) ->
        get k (mergeFields acc prefs) =
        match get k acc, get k prefs with
        | Some x, Some y => Some (mergeValue x y)
        | None, Some y => Some y
        | x, None => x
        end)
  /\ (forall x y, isObject x = false \/ isObject y = false -> mergeValue x y = y)
  /\ (contributions P U cfg w registry resourceUri
        = [[("x", JNum 1)]; [("y", JNum 2)]] ->
      getPreferences P U cfg w registry resourceUri
        = JObj [("x", JNum 1); ("y", JNum 2)]).
Proof.
  split; [apply getPreferences_fold|]. split.
  { rewrite getPreferences_fold. apply merge_fold_object. }
  split; [intros; apply mergeValue_objects|].
  split; [intros; now apply get_mergeFields|].
  split; [apply mergeValue_override|].
  intros H. rewrite getPreferences_fold, H. reflexivity.
Qed.
End ReadTheorems.

(** ** The candidate queue *)

Section QueueFacts.
Context {World Provider Path : Type}.
Variable P : ProviderOps World Provider.
Variable U : PathOps Path.
Variable cfg : PreferenceConfigurations.
Variable preferenceName : string.
Variable v : JSON.
Variable resourceUri : option string.

Local Abbreviation drain' := (drain P cfg).
Local Abbreviation thirdTier' := (thirdTier P preferenceName v resourceUri).
Local Abbreviation secondTier' := (secondTier P cfg preferenceName v resourceUri).
Local Abbreviation firstTier' := (firstTier P cfg preferenceName v resourceUri).

Lemma after_withTurn done (t : Turn Provider) (res : SetResult World Provider) :
  after done (withTurn t res) = after (done ++ [t]) res.
Proof. unfold after, withTurn. cbn. now rewrite <- app_assoc. Qed.

Lemma after_nil (res : SetResult World Provider) : after [] res = res.
Proof. now destruct res. Qed.

(** A queue of third-tier thunks is the third loop. *)
Lemma drain_third l fuel configPath w done :
  List.length l < fuel ->
  drain' fuel preferenceName v resourceUri configPath (map Tier3 l) w done
  = Some (after done (thirdTier' l w)).
Proof.
  revert fuel w done. induction l as [|p l IH]; intros fuel w done Hf;
    (destruct fuel as [|fuel]; [inversion Hf|]).
  - cbn. unfold after. cbn. now rewrite app_nil_r.
  - cbn [map drain call thirdTier]. rewrite app_nil_r.
    destruct (setPreferenceOn P p preferenceName v resourceUri w) as [success w'].
    destruct success; [reflexivity|].
    rewrite IH by (cbn in Hf; lia). now rewrite after_withTurn.
Qed.

(** Second-tier thunks followed by third-tier ones are the second loop. *)
Lemma drain_second l later fuel configPath w done :
  2 * List.length l + List.length later < fuel ->
  drain' fuel preferenceName v resourceUri configPath
         (map Tier2 l ++ map Tier3 later) w done
  = Some (after done (secondTier' configPath l later w)).
Proof.
  revert later fuel w done. induction l as [|p l IH]; intros later fuel w done Hf.
  - cbn [map app secondTier]. apply drain_third. cbn in Hf. lia.
  - destruct fuel as [|fuel]; [inversion Hf|].
    cbn [map app drain call secondTier]. unfold pathMatches.
    destruct configPath as [cp|].
    + destruct (String.eqb (getPath cfg (configUriOf P p)) cp).
      * rewrite app_nil_r.
        destruct (setPreferenceOn P p preferenceName v resourceUri w) as [success w'].
        destruct success; [reflexivity|].
        rewrite IH by (cbn in Hf; lia). now rewrite after_withTurn.
      * rewrite <- app_assoc.
        change (map Tier3 later ++ [Tier3 p]) with (map Tier3 later ++ map Tier3 [p]).
        rewrite <- map_app, IH, after_withTurn; [reflexivity|].
        rewrite length_app. cbn in *. lia.
    + rewrite <- app_assoc.
      change (map Tier3 later ++ [Tier3 p]) with (map Tier3 later ++ map Tier3 [p]).
      rewrite <- map_app, IH, after_withTurn; [reflexivity|].
      rewrite length_app. cbn in *. lia.
Qed.

(** First-tier thunks followed by second-tier ones are the first loop. *)
Lemma drain_first l later fuel configPath w done :
  3 * List.length l + 2 * List.length later < fuel ->
  drain' fuel preferenceName v resourceUri configPath
         (map Tier1 l ++ map Tier2 later) w done
  = Some (after done (firstTier' configPath l later w)).
Proof.
  revert later fuel w done. induction l as [|p l IH]; intros later fuel w done Hf.
  - cbn [map app firstTier].
    rewrite <- (app_nil_r (map Tier2 later)).
    change (@nil (Thunk Provider)) with (map (@Tier3 Provider) []).
    apply drain_second. cbn in *. lia.
  - destruct fuel as [|fuel]; [inversion Hf|].
    cbn [map app drain call firstTier]. unfold hasConfigUri.
    destruct (getConfigUriFor P w p resourceUri).
    + rewrite app_nil_r.
      destruct (setPreferenceOn P p preferenceName v resourceUri w) as [success w'].
      destruct success; [reflexivity|].
      rewrite IH by (cbn in Hf; lia). now rewrite after_withTurn.
    + rewrite <- app_assoc.
      change (map Tier2 later ++ [Tier2 p]) with (map Tier2 later ++ map Tier2 [p]).
      rewrite <- map_app, IH, after_withTurn; [reflexivity|].
      rewrite length_app. cbn in *. lia.
Qed.

(** The loop that fills the queue. *)
Lemma enqueue_loop w configName providers configPath iterator :
  fold_left (enqueue P cfg w resourceUri configName) providers (configPath, iterator)
  = (match configPath with
     | Some _ => configPath
     | None => sharedConfigPath P cfg resourceUri w providers
     end,
     iterator ++ map Tier1 (groupOf P cfg providers configName)).
Proof.
  revert configPath iterator.
  induction providers as [|p providers IH]; intros configPath iterator.
  - cbn. rewrite app_nil_r. now destruct configPath.
  - cbn [fold_left enqueue groupOf filter sharedConfigPath].
    fold (groupOf P cfg providers configName).
    destruct (String.eqb (getName cfg (configUriOf P p)) configName);
      rewrite IH; cbn [map]; rewrite <- ?app_assoc; cbn [app];
      destruct configPath; try reflexivity;
      destruct (getConfigUriFor P w p resourceUri); reflexivity.
Qed.

(** [setPreference] always returns, and what it does is what the three
    loops do one after the other. *)
Lemma setPreference_tiers w registry :
  setPreference P U cfg w registry preferenceName v resourceUri
  = Some (firstTier' (sharedConfigPath P cfg resourceUri w
                        (getFolderProviders P U registry resourceUri))
                     (candidates P U cfg preferenceName resourceUri registry) [] w).
Proof.
  unfold setPreference. rewrite enqueue_loop. cbn [app].
  fold (candidates P U cfg preferenceName resourceUri registry).
  set (cands := candidates P U cfg preferenceName resourceUri registry).
  pose proof (drain_first cands [] (3 * List.length (map Tier1 cands) + 1)
                (sharedConfigPath P cfg resourceUri w
                   (getFolderProviders P U registry resourceUri)) w []) as H.
  cbn [map] in H. rewrite app_nil_r in H.
  rewrite H, after_nil; [reflexivity|].
  rewrite length_map. cbn. lia.
Qed.
End QueueFacts.

(** ** The three tiers *)

Section TierFacts.
Context {World Provider Path : Type}.
Variable P : ProviderOps World Provider.
Variable cfg : PreferenceConfigurations.
Variable preferenceName : string.
Variable v : JSON.
Variable resourceUri : option string.

Local Abbreviation write := (fun p w => setPreferenceOn P p preferenceName v resourceUri w).
Local Abbreviation thirdTier' := (thirdTier P preferenceName v resourceUri).
Local Abbreviation secondTier' := (secondTier P cfg preferenceName v resourceUri).
Local Abbreviation firstTier' := (firstTier P cfg preferenceName v resourceUri).
Local Abbreviation attempted := (fun ts : list (Turn Provider) => map fst (attempts ts)).

Lemma settled_cons (t : Turn Provider) ts b :
  written t <> Some true -> settled ts b -> settled (t :: ts) b.
Proof.
  intros Ht. destruct b; cbn.
  - intros (pre & x & -> & Hx & Hpre). exists (t :: pre), x. repeat split; auto.
  - intros H. now constructor.
Qed.

Lemma settled_success (t : Turn Provider) :
  written t = Some true -> settled [t] true.
Proof. intros H. exists [], t. repeat split; [assumption | constructor]. Qed.

(** *** Stopping at the first accepted write *)

Lemma thirdTier_settled l w :
  settled (turns (thirdTier' l w)) (ok (thirdTier' l w)).
Proof.
  revert w. induction l as [|p l IH]; intros w; cbn [thirdTier].
  - constructor.
  - destruct (write p w) as [[|] w']; cbn.
    + now apply settled_success.
    + apply settled_cons; [discriminate | apply IH].
Qed.

Lemma secondTier_settled cp l later w :
  settled (turns (secondTier' cp l later w)) (ok (secondTier' cp l later w)).
Proof.
  revert later w. induction l as [|p l IH]; intros later w; cbn [secondTier].
  - apply thirdTier_settled.
  - destruct (pathMatches P cfg cp p).
    + destruct (write p w) as [[|] w']; cbn.
      * now apply settled_success.
      * apply settled_cons; [discriminate | apply IH].
    + cbn. apply settled_cons; [discriminate | apply IH].
Qed.

Lemma firstTier_settled cp l later w :
  settled (turns (firstTier' cp l later w)) (ok (firstTier' cp l later w)).
Proof.
  revert later w. induction l as [|p l IH]; intros later w; cbn [firstTier].
  - apply secondTier_settled.
  - destruct (hasConfigUri P resourceUri w p).
    + destruct (write p w) as [[|] w']; cbn.
      * now apply settled_success.
      * apply settled_cons; [discriminate | apply IH].
    + cbn. apply settled_cons; [discriminate | apply IH].
Qed.

(** *** Every candidate is written to at most once, and exactly once when
    all refuse *)

Lemma thirdTier_attempted l w :
  exists rest,
    Permutation (attempted (turns (thirdTier' l w)) ++ rest) l /\
    (ok (thirdTier' l w) = false -> rest = []).
Proof.
  revert w. induction l as [|p l IH]; intros w; cbn [thirdTier].
  - exists []. split; [constructor | reflexivity].
  - destruct (write p w) as [[|] w']; cbn.
    + exists l. split; [reflexivity | discriminate].
    + destruct (IH w') as (rest & Hp & Hr). exists rest. split; [|exact Hr].
      now constructor.
Qed.

Lemma secondTier_attempted cp l later w :
  exists rest,
    Permutation (attempted (turns (secondTier' cp l later w)) ++ rest) (l ++ later) /\
    (ok (secondTier' cp l later w) = false -> rest = []).
Proof.
  revert later w. induction l as [|p l IH]; intros later w; cbn [secondTier].
  - apply thirdTier_attempted.
  - destruct (pathMatches P cfg cp p).
    + destruct (write p w) as [[|] w']; cbn.
      * exists (l ++ later). split; [reflexivity | discriminate].
      * destruct (IH later w') as (rest & Hp & Hr). exists rest.
        split; [now constructor | exact Hr].
    + cbn. destruct (IH (later ++ [p]) w) as (rest & Hp & Hr). exists rest.
      split; [|exact Hr]. rewrite Hp, app_assoc.
      symmetry. apply Permutation_cons_append.
Qed.

Lemma firstTier_attempted cp l later w :
  exists rest,
    Permutation (attempted (turns (firstTier' cp l later w)) ++ rest) (l ++ later) /\
    (ok (firstTier' cp l later w) = false -> rest = []).
Proof.
  revert later w. induction l as [|p l IH]; intros later w; cbn [firstTier].
  - destruct (secondTier_attempted cp later [] w) as (rest & Hp & Hr).
    exists rest. rewrite app_nil_r in Hp. now split.
  - destruct (hasConfigUri P resourceUri w p).
    + destruct (write p w) as [[|] w']; cbn.
      * exists (l ++ later). split; [reflexivity | discriminate].
      * destruct (IH later w') as (rest & Hp & Hr). exists rest.
        split; [now constructor | exact Hr].
    + cbn. destruct (IH (later ++ [p]) w) as (rest & Hp & Hr). exists rest.
      split; [|exact Hr]. rewrite Hp, app_assoc.
      symmetry. apply Permutation_cons_append.
Qed.

(** *** When every candidate refuses, the answer is [false] *)

Lemma thirdTier_refused l w :
  (forall p w', In p l -> fst (write p w') = false) ->
  ok (thirdTier' l w) = false.
Proof.
  revert w. induction l as [|p l IH]; intros w H; cbn [thirdTier]; [reflexivity|].
  pose proof (H p w (or_introl eq_refl)) as Hp.
  destruct (write p w) as [[|] w']; cbn in *; [discriminate|].
  apply IH. intros; apply H; now right.
Qed.

Lemma secondTier_refused cp l later w :
  (forall p w', In p (l ++ later) -> fst (write p w') = false) ->
  ok (secondTier' cp l later w) = false.
Proof.
  revert later w. induction l as [|p l IH]; intros later w H; cbn [secondTier].
  - now apply thirdTier_refused.
  - pose proof (H p w (or_introl eq_refl)) as Hp.
    destruct (pathMatches P cfg cp p).
    + destruct (write p w) as [[|] w']; cbn in *; [discriminate|].
      apply IH. intros; apply H; now right.
    + cbn. apply IH. intros q w' Hq. apply H.
      apply in_app_or in Hq as [Hq|Hq].
      * right. apply in_or_app. now left.
      * apply in_app_or in Hq as [Hq|[<-|[]]]; [|now left].
        right. apply in_or_app. now right.
Qed.

Lemma firstTier_refused cp l later w :
  (forall p w', In p (l ++ later) -> fst (write p w') = false) ->
  ok (firstTier' cp l later w) = false.
Proof.
  revert later w. induction l as [|p l IH]; intros later w H; cbn [firstTier].
  - apply secondTier_refused. now rewrite app_nil_r.
  - pose proof (H p w (or_introl eq_refl)) as Hp.
    destruct (hasConfigUri P resourceUri w p).
    + destruct (write p w) as [[|] w']; cbn in *; [discriminate|].
      apply IH. intros; apply H; now right.
    + cbn. apply IH. intros q w' Hq. apply H.
      apply in_app_or in Hq as [Hq|Hq].
      * right. apply in_or_app. now left.
      * apply in_app_or in Hq as [Hq|[<-|[]]]; [|now left].
        right. apply in_or_app. now right.
Qed.

(** *** The number of turns *)

Lemma thirdTier_length l w : List.length (turns (thirdTier' l w)) <= List.length l.
Proof.
  revert w. induction l as [|p l IH]; intros w; cbn [thirdTier]; [cbn; lia|].
  destruct (write p w) as [[|] w']; cbn; [lia|]. specialize (IH w'). lia.
Qed.

Lemma secondTier_length cp l later w :
  List.length (turns (secondTier' cp l later w))
  <= 2 * List.length l + List.length later.
Proof.
  revert later w. induction l as [|p l IH]; intros later w; cbn [secondTier].
  - pose proof (thirdTier_length later w). cbn. lia.
  - destruct (pathMatches P cfg cp p).
    + destruct (write p w) as [[|] w']; cbn; [lia|]. specialize (IH later w'). lia.
    + cbn. specialize (IH (later ++ [p]) w). rewrite length_app in IH. cbn in IH. lia.
Qed.

Lemma firstTier_length cp l later w :
  List.length (turns (firstTier' cp l later w))
  <= 3 * List.length l + 2 * List.length later.
Proof.
  revert later w. induction l as [|p l IH]; intros later w; cbn [firstTier].
  - pose proof (secondTier_length cp later [] w). cbn in *. lia.
  - destruct (hasConfigUri P resourceUri w p).
    + destruct (write p w) as [[|] w']; cbn; [lia|]. specialize (IH later w'). lia.
    + cbn. specialize (IH (later ++ [p]) w). rewrite length_app in IH. cbn in IH. lia.
Qed.
End TierFacts.

Section TierOrder.
Context {World Provider Path : Type}.
Variable P : ProviderOps World Provider.
Variable cfg : PreferenceConfigurations.
Variable preferenceName : string.
Variable v : JSON.
Variable resourceUri : option string.

Local Abbreviation write := (fun p w => setPreferenceOn P p preferenceName v resourceUri w).
Local Abbreviation thirdTier' := (thirdTier P preferenceName v resourceUri).
Local Abbreviation secondTier' := (secondTier P cfg preferenceName v resourceUri).
Local Abbreviation firstTier' := (firstTier P cfg preferenceName v resourceUri).
Local Abbreviation inOrder := (writeInOrder P preferenceName v resourceUri).
Local Abbreviation has := (hasConfigUri P resourceUri).

(** *** Which thunks are called *)

Lemma thirdTier_calls l w :
  let ts := turns (thirdTier' l w) in
  calledAt 1 ts = [] /\ calledAt 2 ts = [] /\
  declinedAt 1 ts = [] /\ declinedAt 2 ts = [] /\
  exists rest, calledAt 3 ts ++ rest = l.
Proof.
  revert w. induction l as [|p l IH]; intros w; cbn [thirdTier].
  - cbn. repeat split. now exists [].
  - destruct (write p w) as [[|] w']; cbn.
    + repeat split. now exists l.
    + destruct (IH w') as (H1 & H2 & H3 & H4 & rest & H5).
      repeat split; try assumption. exists rest. cbn. now f_equal.
Qed.

Lemma secondTier_calls cp l later w :
  let ts := turns (secondTier' cp l later w) in
  calledAt 1 ts = [] /\ declinedAt 1 ts = [] /\
  (exists rest, calledAt 2 ts ++ rest = l) /\
  (exists rest, calledAt 3 ts ++ rest = later ++ declinedAt 2 ts).
Proof.
  revert later w. induction l as [|p l IH]; intros later w; cbn [secondTier].
  - destruct (thirdTier_calls later w) as (H1 & H2 & H3 & H4 & rest & H5).
    cbn zeta. rewrite H2, H4, app_nil_r. repeat split; try assumption.
    + now exists [].
    + now exists rest.
  - destruct (pathMatches P cfg cp p).
    + destruct (write p w) as [[|] w']; cbn.
      * repeat split; [now exists l | exists later; now rewrite app_nil_r].
      * destruct (IH later w') as (H1 & H2 & [r2 H3] & [r3 H4]).
        repeat split; try assumption; [exists r2; cbn; now f_equal | now exists r3].
    + cbn. destruct (IH (later ++ [p]) w) as (H1 & H2 & [r2 H3] & [r3 H4]).
      repeat split; try assumption; [exists r2; cbn; now f_equal|].
      exists r3. rewrite <- app_assoc in H4. exact H4.
Qed.

Lemma firstTier_calls cp l later w :
  let ts := turns (firstTier' cp l later w) in
  (exists rest, calledAt 1 ts ++ rest = l) /\
  (exists rest, calledAt 2 ts ++ rest = later ++ declinedAt 1 ts) /\
  (exists rest, calledAt 3 ts ++ rest = declinedAt 2 ts).
Proof.
  revert later w. induction l as [|p l IH]; intros later w; cbn [firstTier].
  - destruct (secondTier_calls cp later [] w) as (H1 & H2 & [r2 H3] & [r3 H4]).
    cbn zeta. rewrite H1, H2, app_nil_r. repeat split.
    + now exists [].
    + now exists r2.
    + now exists r3.
  - destruct (has w p).
    + destruct (write p w) as [[|] w']; cbn.
      * repeat split; [now exists l | exists later; now rewrite app_nil_r | now exists []].
      * destruct (IH later w') as ([r1 H1] & [r2 H2] & [r3 H3]).
        repeat split; [exists r1; cbn; now f_equal | now exists r2 | now exists r3].
    + cbn. destruct (IH (later ++ [p]) w) as ([r1 H1] & [r2 H2] & [r3 H3]).
      repeat split; [exists r1; cbn; now f_equal | | now exists r3].
      exists r2. rewrite <- app_assoc in H2. exact H2.
Qed.

(** *** The order of the writes *)

Lemma outcome_declined (t : Thunk Provider) (res : SetResult World Provider) :
  outcome (withTurn {| called := t; written := None |} res) = outcome res.
Proof. reflexivity. Qed.

Lemma outcome_refused (t : Thunk Provider) (res : SetResult World Provider) :
  outcome (withTurn {| called := t; written := Some false |} res) =
  let '(b, w, l) := outcome res in (b, w, (owner t, false) :: l).
Proof. reflexivity. Qed.

Lemma thirdTier_order l w : outcome (thirdTier' l w) = inOrder l w.
Proof.
  revert w. induction l as [|p l IH]; intros w; cbn [thirdTier writeInOrder]; [reflexivity|].
  destruct (write p w) as [[|] w']; [reflexivity|].
  now rewrite outcome_refused, IH.
Qed.

Lemma secondTier_order cp l later w :
  outcome (secondTier' cp l later w) =
  inOrder (filter (pathMatches P cfg cp) l ++ later
           ++ filter (fun p => negb (pathMatches P cfg cp p)) l) w.
Proof.
  revert later w. induction l as [|p l IH]; intros later w;
    cbn [secondTier filter].
  - rewrite app_nil_r. apply thirdTier_order.
  - destruct (pathMatches P cfg cp p); cbn [negb app writeInOrder].
    + destruct (write p w) as [[|] w']; [reflexivity|].
      now rewrite outcome_refused, IH.
    + rewrite outcome_declined, IH, <- app_assoc. reflexivity.
Qed.

Lemma firstTier_order cp l later w w0 :
  refusalsKeepConfigUris P preferenceName v resourceUri ->
  (forall q, has w q = has w0 q) ->
  outcome (firstTier' cp l later w) =
  inOrder (filter (has w0) l
           ++ filter (pathMatches P cfg cp)
                     (later ++ filter (fun p => negb (has w0 p)) l)
           ++ filter (fun p => negb (pathMatches P cfg cp p))
                     (later ++ filter (fun p => negb (has w0 p)) l)) w.
Proof.
  intros Hstable. revert later w. induction l as [|p l IH]; intros later w Hw;
    cbn [firstTier filter].
  - rewrite !app_nil_r. rewrite secondTier_order. reflexivity.
  - rewrite Hw. destruct (has w0 p); cbn [negb app writeInOrder].
    + destruct (write p w) as [[|] w'] eqn:E; [reflexivity|].
      rewrite outcome_refused, IH; [reflexivity|].
      intros q. rewrite (Hstable p w w' E q). apply Hw.
    + rewrite outcome_declined, IH by assumption.
      rewrite <- !app_assoc. reflexivity.
Qed.
End TierOrder.

Section TierReplay.
Context {World Provider Path : Type}.
Variable P : ProviderOps World Provider.
Variable cfg : PreferenceConfigurations.
Variable preferenceName : string.
Variable v : JSON.
Variable resourceUri : option string.

Local Abbreviation write := (fun p w => setPreferenceOn P p preferenceName v resourceUri w).
Local Abbreviation thirdTier' := (thirdTier P preferenceName v resourceUri).
Local Abbreviation secondTier' := (secondTier P cfg preferenceName v resourceUri).
Local Abbreviation firstTier' := (firstTier P cfg preferenceName v resourceUri).
Local Abbreviation replays' := (replays P preferenceName v resourceUri).

(** *** The turns are the calls that were made *)

Lemma thirdTier_replays l w :
  replays' (turns (thirdTier' l w)) w (world (thirdTier' l w)).
Proof.
  revert w. induction l as [|p l IH]; intros w; cbn [thirdTier]; [reflexivity|].
  destruct (write p w) as [[|] w'] eqn:E; cbn.
  - exists w'. split; [exact E | reflexivity].
  - exists w'. split; [exact E | apply IH].
Qed.

Lemma secondTier_replays cp l later w :
  replays' (turns (secondTier' cp l later w)) w (world (secondTier' cp l later w)).
Proof.
  revert later w. induction l as [|p l IH]; intros later w; cbn [secondTier].
  - apply thirdTier_replays.
  - destruct (pathMatches P cfg cp p).
    + destruct (write p w) as [[|] w'] eqn:E; cbn.
      * exists w'. split; [exact E | reflexivity].
      * exists w'. split; [exact E | apply IH].
    + cbn. apply IH.
Qed.

Lemma firstTier_replays cp l later w :
  replays' (turns (firstTier' cp l later w)) w (world (firstTier' cp l later w)).
Proof.
  revert later w. induction l as [|p l IH]; intros later w; cbn [firstTier].
  - apply secondTier_replays.
  - destruct (hasConfigUri P resourceUri w p).
    + destruct (write p w) as [[|] w'] eqn:E; cbn.
      * exists w'. split; [exact E | reflexivity].
      * exists w'. split; [exact E | apply IH].
    + cbn. apply IH.
Qed.

(** *** Whose thunks are called *)

Lemma thirdTier_owners l w t :
  In t (turns (thirdTier' l w)) -> In (owner (called t)) l.
Proof.
  revert w. induction l as [|p l IH]; intros w; cbn [thirdTier]; [easy|].
  destruct (write p w) as [[|] w']; cbn.
  - intros [<-|[]]. now left.
  - intros [<-|H]; [now left | right; now apply (IH w')].
Qed.

Lemma secondTier_owners cp l later w t :
  In t (turns (secondTier' cp l later w)) -> In (owner (called t)) (l ++ later).
Proof.
  revert later w. induction l as [|p l IH]; intros later w; cbn [secondTier].
  - apply thirdTier_owners.
  - destruct (pathMatches P cfg cp p).
    + destruct (write p w) as [[|] w']; cbn.
      * intros [<-|[]]. now left.
      * intros [<-|H]; [now left | right; now apply (IH later w')].
    + cbn. intros [<-|H]; [now left|].
      apply IH in H.
      apply in_app_or in H as [H|H]; [right; apply in_or_app; now left|].
      apply in_app_or in H as [H|[<-|[]]]; [right; apply in_or_app; now right | now left].
Qed.

Lemma firstTier_owners cp l later w t :
  In t (turns (firstTier' cp l later w)) -> In (owner (called t)) (l ++ later).
Proof.
  revert later w. induction l as [|p l IH]; intros later w; cbn [firstTier].
  - intros H. apply secondTier_owners in H. now rewrite app_nil_r in H.
  - destruct (hasConfigUri P resourceUri w p).
    + destruct (write p w) as [[|] w']; cbn.
      * intros [<-|[]]. now left.
      * intros [<-|H]; [now left | right; now apply (IH later w')].
    + cbn. intros [<-|H]; [now left|].
      apply IH in H.
      apply in_app_or in H as [H|H]; [right; apply in_or_app; now left|].
      apply in_app_or in H as [H|[<-|[]]]; [right; apply in_or_app; now right | now left].
Qed.

(** An attempt in a replayed trace is a call that gave that answer. *)
Lemma replays_attempt ts w w' p b :
  replays' ts w w' -> In (p, b) (attempts ts) ->
  exists w0 w1, write p w0 = (b, w1).
Proof.
  revert w. induction ts as [|t ts IH]; intros w Hr Hin; [easy|].
  cbn [replays] in Hr. cbn [attempts flat_map] in Hin.
  destruct (written t) as [b'|].
  - destruct Hr as (w1 & Hw & Hr). destruct Hin as [Hin|Hin].
    + inversion Hin; subst. now exists w, w1.
    + now apply (IH w1).
  - now apply (IH w).
Qed.

Lemma refused_attempt (ts : list (Turn Provider)) p b :
  Forall (fun x => written x <> Some true) ts ->
  In (p, b) (attempts ts) -> b = false.
Proof.
  induction 1 as [|t ts Ht Hts IH]; [easy|]. cbn [attempts flat_map].
  destruct (written t) as [b'|] eqn:E; [|exact IH].
  intros [Hin|Hin]; [|now apply IH].
  inversion Hin; subst. destruct b; [contradiction | reflexivity].
Qed.

(** The accepted write of a search that answers [true] is a candidate's. *)
Lemma accepted_owner (ts pre : list (Turn Provider)) t (l : list Provider) :
  (forall x, In x ts -> In (owner (called x)) l) ->
  ts = pre ++ [t] -> In (owner (called t)) l.
Proof. intros H ->. apply H. apply in_or_app. right. now left. Qed.
End TierReplay.

Section WriteTheorems.
Context {World Provider Path : Type}.
Variable P : ProviderOps World Provider.
Variable U : PathOps Path.
Variable cfg : PreferenceConfigurations.
Variable preferenceName : string.
Variable v : JSON.
Variable resourceUri : option string.

Local Abbreviation write := (fun p w => setPreferenceOn P p preferenceName v resourceUri w).
Local Abbreviation candidates' := (candidates P U cfg preferenceName resourceUri).

(** C4, as the code has it. [setPreference] does what three loops over the
    candidates do one after the other: the first writes to the candidates
    that have a config URI for the resource when their turn comes and hands
    the others on; the second writes to those whose own config path is the
    path of the config URI of the first of the folder's providers that had
    one when the queue was filled, and hands the others on; the third writes
    to all that are left, in their order. A refused write moves on to the
    next candidate, an accepted one ends the search. When refused writes do
    not change which providers have a config URI for the resource, this is
    writing to the candidates of the three tiers in order until one
    accepts. *)
Theorem setPreference_search_order w registry :
  exists res,
    setPreference P U cfg w registry preferenceName v resourceUri = Some res
    /\ res = firstTier P cfg preferenceName v resourceUri
               (sharedConfigPath P cfg resourceUri w
                  (getFolderProviders P U registry resourceUri))
               (candidates' registry) [] w
    /\ (refusalsKeepConfigUris P preferenceName v resourceUri ->
        outcome res =
        writeInOrder P preferenceName v resourceUri
          (searchOrder P U cfg preferenceName resourceUri w registry) w).
Proof.
  eexists. split; [apply setPreference_tiers|]. split; [reflexivity|].
  intros Hstable.
  rewrite (firstTier_order P cfg preferenceName v resourceUri _ _ [] w w Hstable)
    by reflexivity.
  unfold searchOrder. cbn [app]. now rewrite !filter_filter.
Qed.

(** C8. [setPreference] always returns, and the turns it took are the
    calls it made: each recorded answer is what the provider's
    [setPreference] answered in the world the calls before it left, and the
    world it ends in is the world after the last call. When it returns
    [true], the last thing it did was a candidate's write that was accepted,
    and every write before was refused. When it returns [false], every
    candidate was written to exactly once and every write was refused. It
    returns [true] whenever some candidate accepts the write whatever the
    world, [false] whenever every candidate refuses, and [false] without a
    turn of the loop and without touching the world whenever the folder
    selector returns no provider, as it does without a resource URI. *)
Theorem setPreference_true_at_first_success w registry :
  exists res,
    setPreference P U cfg w registry preferenceName v resourceUri = Some res
    /\ replays P preferenceName v resourceUri (turns res) w (world res)
    /\ (ok res = true ->
        exists pre t, turns res = pre ++ [t] /\ written t = Some true /\
                      In (owner (called t)) (candidates' registry) /\
                      Forall (fun x => written x <> Some true) pre)
    /\ (ok res = false ->
        Forall (fun x => written x <> Some true) (turns res) /\
        Permutation (map fst (attempts (turns res))) (candidates' registry))
    /\ ((exists p, In p (candidates' registry) /\
                   forall w', fst (write p w') = true) ->
        ok res = true)
    /\ ((forall p w', In p (candidates' registry) -> fst (write p w') = false) ->
        ok res = false)
    /\ (getFolderProviders P U registry resourceUri = [] ->
        ok res = false /\ turns res = [] /\ world res = w)
    /\ (resourceUri = None \/ resourceUri = Some ""%string ->
        ok res = false /\ turns res = [] /\ world res = w).
Proof.
  eexists. split; [apply setPreference_tiers|].
  set (cp := sharedConfigPath P cfg resourceUri w _).
  set (res := firstTier P cfg preferenceName v resourceUri cp (candidates' registry) [] w).
  pose proof (firstTier_settled P cfg preferenceName v resourceUri cp
                (candidates' registry) [] w) as Hs.
  pose proof (firstTier_replays P cfg preferenceName v resourceUri cp
                (candidates' registry) [] w) as Hrun.
  destruct (firstTier_attempted P cfg preferenceName v resourceUri cp
              (candidates' registry) [] w) as (rest & Hp & Hr).
  fold res in Hs, Hrun, Hp, Hr.
  assert (Hown : forall x, In x (turns res) -> In (owner (called x)) (candidates' registry)).
  { intros x Hx. apply firstTier_owners in Hx. now rewrite app_nil_r in Hx. }
  assert (Hempty : getFolderProviders P U registry resourceUri = [] ->
                   res = {| ok := false; world := w; turns := [] |}).
  { intros H. subst res. unfold candidates. now rewrite H. }
  assert (Hfalse : ok res = false ->
            Forall (fun x => written x <> Some true) (turns res) /\
            Permutation (map fst (attempts (turns res))) (candidates' registry)).
  { intros H. rewrite H in Hs. split; [exact Hs|].
    rewrite (Hr H), !app_nil_r in Hp. exact Hp. }
  split; [exact Hrun|]. split; [|split; [exact Hfalse|split; [|split; [|split]]]].
  - intros H. rewrite H in Hs. destruct Hs as (pre & t & Ht & Hw & Hpre).
    exists pre, t. repeat split; try assumption.
    now apply (accepted_owner (turns res) pre).
  - intros (p & Hin & Hacc). destruct (ok res) eqn:E; [reflexivity|].
    destruct (Hfalse eq_refl) as [Hall Hperm].
    apply (Permutation_in _ (Permutation_sym Hperm)) in Hin.
    apply in_map_iff in Hin as ([q b] & Hq & Hin). cbn in Hq. subst q.
    pose proof (refused_attempt _ p b Hall Hin) as ->.
    destruct (replays_attempt P preferenceName v resourceUri _ _ _ p false Hrun Hin)
      as (w0 & w1 & Hw).
    specialize (Hacc w0). rewrite Hw in Hacc. discriminate.
  - intros H. apply firstTier_refused. now rewrite app_nil_r.
  - intros H. now rewrite (Hempty H).
  - intros H. rewrite Hempty; [now repeat split|]. now destruct H as [-> | ->].
Qed.

(** C10. [setPreference] always returns, after at most three turns of the
    loop per candidate. The first-tier thunks that are called belong to
    the candidates, each at most once and in their order; a second-tier
    thunk is only ever called for a provider whose first-tier thunk
    returned no provider, and a third-tier thunk only for one whose
    second-tier thunk returned none, so a provider that was selected gets
    no further thunk; and the providers written to are candidates, each
    written to at most once. *)
Theorem setPreference_terminates_each_once w registry :
  exists res,
    setPreference P U cfg w registry preferenceName v resourceUri = Some res
    /\ List.length (turns res) <= 3 * List.length (candidates' registry)
    /\ (exists rest, calledAt 1 (turns res) ++ rest = candidates' registry)
    /\ (exists rest, calledAt 2 (turns res) ++ rest = declinedAt 1 (turns res))
    /\ (exists rest, calledAt 3 (turns res) ++ rest = declinedAt 2 (turns res))
    /\ (exists rest,
          Permutation (map fst (attempts (turns res)) ++ rest) (candidates' registry)).
Proof.
  eexists. split; [apply setPreference_tiers|].
  set (cp := sharedConfigPath P cfg resourceUri w _).
  pose proof (firstTier_length P cfg preferenceName v resourceUri cp
                (candidates' registry) [] w) as Hl.
  destruct (firstTier_calls P cfg preferenceName v resourceUri cp
              (candidates' registry) [] w) as (H1 & H2 & H3).
  destruct (firstTier_attempted P cfg preferenceName v resourceUri cp
              (candidates' registry) [] w) as (rest & Hp & _).
  split; [cbn in Hl; lia|]. repeat split; try assumption.
  exists rest. now rewrite app_nil_r in Hp.
Qed.
End WriteTheorems.

(** * The sample workspace *)

Module SampleFacts.
Import Sample.

Lemma all_by_computation {A} (f : A -> bool) (Q : A -> Prop) l :
  (forall x, f x = true -> Q x) -> forallb f l = true -> forall x, In x l -> Q x.
Proof.
  intros Hf Hall x Hx. apply Hf. rewrite forallb_forall in Hall. now apply Hall.
Qed.

(** Specificity: with [/a] and [/a/b] registered, a resource under [/a/b]
    is served by the providers of [/a/b] only. *)
Example specificity :
  map prov_folder (getFolderProviders ops paths (providers registry) (Some resource))
  = repeat "file:///a/b" 9.
Proof. vm_compute. reflexivity. Qed.

(** The first pass creates the eighteen providers of the two roots and
    disposes nothing. *)
Example first_pass_events :
  events registry = map Created (OrderedMap.keys (providers registry))
  /\ List.length (events registry) = 18.
Proof. vm_compute. split; reflexivity. Qed.

(** Removing the root [/a/b] disposes its nine providers. *)
Example root_removal :
  let reg := updateProviders factory cfg [ {| uri := "file:///a" |} ] registry in
  map prov_folder (OrderedMap.values (providers reg)) = repeat "file:///a" 9
  /\ skipn 18 (events reg)
     = map Disposed (skipn 9 (OrderedMap.keys (providers registry))).
Proof. vm_compute. split; reflexivity. Qed.

(** Writing [foo.bar] where no config file exists falls through to the
    third tier. *)
Example write_fallback :
  option_map (fun res => (ok res, map (fun t => tier (called t)) (turns res)))
    (setPreference ops paths cfg emptyDisk (providers registry)
       "foo.bar" (JNum 1) (Some resource))
  = Some (true, [1; 1; 1; 2; 2; 2; 3]).
Proof. vm_compute. reflexivity. Qed.

Lemma sample_refusals : forall name v r, refusalsKeepConfigUris ops name v r.
Proof.
  intros name v r p w w' H q. cbn in H.
  destruct (mem (prov_uri p) (readOnly w)); [|discriminate].
  now inversion H.
Qed.

(** ** Witnesses *)

Lemma updateProviders_idempotent_witness :
  let once := updateProviders factory cfg roots initial in
  let twice := updateProviders factory cfg roots once in
  providers twice = providers once /\ events twice = events once.
Proof. exact (updateProviders_idempotent Prov factory cfg roots initial). Defined.

Lemma updateProviders_no_orphans_witness :
  let reg' := updateProviders factory cfg [ {| uri := "file:///a" |} ] registry in
  NoDup (OrderedMap.keys (providers reg'))
  /\ (forall k, count_occ LifecycleEvent_eq_dec (events reg') (Created k) =
                count_occ LifecycleEvent_eq_dec (events reg') (Disposed k)
                + (if mem k (OrderedMap.keys (providers reg')) then 1 else 0)).
Proof.
  pose proof (updateProviders_no_orphans Prov factory cfg
                [ {| uri := "file:///a" |} ] registry
                (reachable_update Prov factory cfg roots initial
                   (reachable_initial Prov factory))) as H.
  cbv zeta in H. destruct H as (H1 & _ & _ & H4). split; assumption.
Defined.

Lemma getFolderProviders_most_specific_witness :
  exists winner,
    In winner (OrderedMap.values (providers registry))
    /\ (0 <= relativityTo ops paths resource winner)%Z
    /\ (forall q, In q (OrderedMap.values (providers registry)) ->
                  (0 <= relativityTo ops paths resource q)%Z ->
                  (relativityTo ops paths resource winner
                   <= relativityTo ops paths resource q)%Z)
    /\ getFolderProviders ops paths (providers registry) (Some resource)
       = providersOf ops (folderUri ops winner) (providers registry)
    /\ (forall q, In q (getFolderProviders ops paths (providers registry)
                          (Some resource)) ->
                  folderUri ops q = folderUri ops winner
                  /\ (0 <= relativityTo ops paths resource q)%Z).
Proof.
  assert (H1 : forall p, In p (OrderedMap.values (providers registry)) ->
                         folderUri ops p <> "").
  { apply (all_by_computation (fun p => negb (String.eqb (folderUri ops p) ""))).
    - intros x Hx Heq. rewrite Heq in Hx. discriminate.
    - vm_compute. reflexivity. }
  assert (H2 : forall p r, Some resource = Some r ->
                 In p (OrderedMap.values (providers registry)) ->
                 (relativityTo ops paths r p < MAX_SAFE_INTEGER)%Z).
  { intros p r Hr. inversion Hr; subst r. revert p.
    apply (all_by_computation
             (fun p => (relativityTo ops paths resource p <? MAX_SAFE_INTEGER)%Z)).
    - intros x Hx. now apply Z.ltb_lt.
    - vm_compute. reflexivity. }
  apply (proj2 (proj2 (getFolderProviders_most_specific ops paths
                         (providers registry) (Some resource) H1 H2))
           resource eq_refl).
  - discriminate.
  - exists (providerAt "file:///a" ".kaitian" "launch").
    split; [vm_compute; now left | vm_compute; discriminate].
Defined.

Lemma getFolderProviders_first_registered_wins_witness :
  let p := providerAt "theia:///a/b" ".kaitian" "launch" in
  let later := skipn 10 (OrderedMap.values (providers twinRegistry)) in
  getFolderProviders ops paths (providers twinRegistry) (Some resource)
  = providersOf ops (folderUri ops p) (providers twinRegistry)
  /\ In p (getFolderProviders ops paths (providers twinRegistry) (Some resource))
  /\ (forall q, In q later -> folderUri ops q <> folderUri ops p ->
                ~ In q (getFolderProviders ops paths (providers twinRegistry)
                          (Some resource))).
Proof.
  intros p later.
  refine (getFolderProviders_first_registered_wins ops paths
            (providers twinRegistry) resource
            (firstn 9 (OrderedMap.values (providers twinRegistry)))
            p later _ _ _ _ _ _).
  - discriminate.
  - vm_compute. reflexivity.
  - discriminate.
  - vm_compute. split; [discriminate | reflexivity].
  - apply (all_by_computation
             (fun q => (relativityTo ops paths resource q <? 0)%Z
                       || (1 <? relativityTo ops paths resource q)%Z)).
    + intros x Hx. apply orb_true_iff in Hx as [Hx|Hx]; [left | right].
      * now apply Z.ltb_lt.
      * apply Z.ltb_lt in Hx. exact Hx.
    + vm_compute. reflexivity.
  - apply (all_by_computation
             (fun q => (relativityTo ops paths resource q <? 0)%Z
                       || (1 <=? relativityTo ops paths resource q)%Z)).
    + intros x Hx. apply orb_true_iff in Hx as [Hx|Hx]; [left | right].
      * now apply Z.ltb_lt.
      * apply Z.leb_le in Hx. exact Hx.
    + vm_compute. reflexivity.
Defined.
End SampleFacts.

Module SampleReads.
Import Sample SampleFacts.

(** The specification has the default group walked last. On the sample
    workspace the groups come as [settings], [launch], [tasks]. *)
Lemma groups_default_last_refuted :
  OrderedMap.keys
    (groupProvidersByConfigName ops paths cfg (providers registry) (Some resource))
  <> getSectionNames cfg ++ [getConfigName cfg].
Proof. vm_compute. discriminate. Qed.

Lemma groups_walked_default_first_witness :
  OrderedMap.keys
    (groupProvidersByConfigName ops paths cfg (providers registry) (Some resource))
  = ["settings"; "launch"; "tasks"].
Proof.
  rewrite (proj1 (groups_walked_default_first ops paths cfg emptyDisk
                    (providers registry) "launch.foo" (Some resource))).
  vm_compute. reflexivity.
Defined.

(** The specification has [resolve] return the section provider's value.
    When both values are objects it does not: [settings.json] has
    [launch.foo = {a:1}], [launch.json] has [launch.foo = {b:2}], and
    [resolve] returns [{a:1, b:2}]. *)
Lemma resolve_section_value_refuted :
  let section := providerAt "file:///a/b" ".kaitian" "launch" in
  In section (getFolderProviders ops paths (providers registry) (Some resource))
  /\ value (resolveIn ops objectsDisk section "launch.foo" (Some resource))
     = Some (JObj [("b", JNum 2)])
  /\ value (resolve ops paths cfg objectsDisk (providers registry)
              "launch.foo" (Some resource))
     = Some (JObj [("a", JNum 1); ("b", JNum 2)])
  /\ value (resolve ops paths cfg objectsDisk (providers registry)
              "launch.foo" (Some resource))
     <> value (resolveIn ops objectsDisk section "launch.foo" (Some resource)).
Proof.
  cbv zeta. split; [vm_compute; now left|].
  split; [vm_compute; reflexivity|].
  split; [vm_compute; reflexivity|].
  vm_compute. discriminate.
Qed.

Lemma resolve_section_overrides_default_witness :
  resolve ops paths cfg objectsDisk (providers registry) "launch.foo" (Some resource)
  = {| value := Some (JObj [("a", JNum 1); ("b", JNum 2)]);
       configUri := Some "file:///a/b/.kaitian/launch.json" |}.
Proof.
  apply (resolve_section_overrides_default ops paths cfg objectsDisk
           (providers registry) "launch.foo" (Some resource) "launch"
           (JObj [("a", JNum 1)]) "file:///a/b/.kaitian/settings.json"
           (JObj [("b", JNum 2)]) "file:///a/b/.kaitian/launch.json"
           ltac:(vm_compute; now left)
           ltac:(discriminate)
           ltac:(vm_compute; reflexivity)
           ltac:(vm_compute; reflexivity)
           ltac:(intros n [<-|[<-|[]]] Hn;
                 [now contradiction Hn | vm_compute; reflexivity])).
Defined.

Lemma getPreferences_merges_groups_witness :
  getPreferences ops paths cfg unionDisk (providers registry) (Some resource)
  = JObj [("x", JNum 1); ("y", JNum 2)].
Proof.
  apply (getPreferences_merges_groups ops paths cfg unionDisk
           (providers registry) (Some resource)).
  vm_compute. reflexivity.
Defined.
End SampleReads.

Module SampleWrites.
Import Sample SampleFacts.

Local Abbreviation kaitian := (providerAt "file:///a/b" ".kaitian" "settings").
Local Abbreviation vscode := (providerAt "file:///a/b" ".vscode" "settings").
Local Abbreviation theia := (providerAt "file:///a/b" ".theia" "settings").

(** The search order of the specification differs from the code's twice.
    Where no config file exists and the first candidate refuses, the code
    goes on to the second candidate and returns [true], while the specified
    third tier holds the first candidate only. Where [launch.json] exists
    under [.vscode] and [.theia], the code's second tier holds the [.vscode]
    candidate only, the path of the first provider with a config URI, and
    the [.kaitian] candidate is written before the [.theia] one. *)
Lemma setPreference_specified_order_refuted :
  (option_map (fun res => (ok res, attempts (turns res)))
     (setPreference ops paths cfg bareDisk (providers registry)
        "foo.bar" (JNum 1) (Some resource))
   = Some (true, [(kaitian, false); (vscode, true)])
   /\ specifiedOrder ops paths cfg "foo.bar" (Some resource) bareDisk
        (providers registry)
      = [kaitian]
   /\ fst (fst (writeInOrder ops "foo.bar" (JNum 1) (Some resource)
                  (specifiedOrder ops paths cfg "foo.bar" (Some resource) bareDisk
                     (providers registry)) bareDisk))
      = false)
  /\ (option_map (fun res => attempts (turns res))
        (setPreference ops paths cfg siblingsDisk (providers registry)
           "foo.bar" (JNum 1) (Some resource))
      = Some [(vscode, false); (kaitian, true)]
      /\ specifiedOrder ops paths cfg "foo.bar" (Some resource) siblingsDisk
           (providers registry)
         = [vscode; theia; kaitian]
      /\ snd (writeInOrder ops "foo.bar" (JNum 1) (Some resource)
                (specifiedOrder ops paths cfg "foo.bar" (Some resource) siblingsDisk
                   (providers registry)) siblingsDisk)
         = [(vscode, false); (theia, true)]).
Proof. vm_compute. repeat split; reflexivity. Qed.

Lemma setPreference_search_order_witness :
  exists res,
    setPreference ops paths cfg siblingsDisk (providers registry)
      "foo.bar" (JNum 1) (Some resource) = Some res
    /\ outcome res
       = writeInOrder ops "foo.bar" (JNum 1) (Some resource)
           [vscode; kaitian; theia] siblingsDisk.
Proof.
  destruct (setPreference_search_order ops paths cfg "foo.bar" (JNum 1) (Some resource)
              siblingsDisk (providers registry)) as (res & Hres & _ & Horder).
  exists res. split; [exact Hres|].
  exact (Horder (sample_refusals "foo.bar" (JNum 1) (Some resource))).
Defined.

Lemma setPreference_true_at_first_success_witness :
  exists res,
    setPreference ops paths cfg bareDisk (providers registry)
      "foo.bar" (JNum 1) (Some resource) = Some res
    /\ ok res = true
    /\ attempts (turns res) = [(kaitian, false); (vscode, true)]
    /\ OrderedMap.keys (files (world res)) = ["file:///a/b/.vscode/settings.json"]
    /\ replays ops "foo.bar" (JNum 1) (Some resource) (turns res) bareDisk (world res)
    /\ exists pre t,
         turns res = pre ++ [t] /\ written t = Some true /\
         In (owner (called t))
            (candidates ops paths cfg "foo.bar" (Some resource) (providers registry)) /\
         Forall (fun x => written x <> Some true) pre.
Proof.
  destruct (setPreference_true_at_first_success ops paths cfg "foo.bar" (JNum 1)
              (Some resource) bareDisk (providers registry))
    as (res & Hres & Hrun & Htrue & _).
  assert (Hok : ok res = true).
  { pose proof Hres as Hc. vm_compute in Hc. injection Hc as <-. reflexivity. }
  exists res. split; [exact Hres|]. split; [exact Hok|].
  split; [|split; [|split; [exact Hrun | exact (Htrue Hok)]]].
  - pose proof Hres as Hc. vm_compute in Hc. injection Hc as <-. reflexivity.
  - pose proof Hres as Hc. vm_compute in Hc. injection Hc as <-. reflexivity.
Defined.

Lemma setPreference_terminates_each_once_witness :
  exists res,
    setPreference ops paths cfg siblingsDisk (providers registry)
      "foo.bar" (JNum 1) (Some resource) = Some res
    /\ List.length (turns res) <= 9
    /\ exists rest,
         Permutation (map fst (attempts (turns res)) ++ rest) [kaitian; vscode; theia].
Proof.
  destruct (setPreference_terminates_each_once ops paths cfg "foo.bar" (JNum 1)
              (Some resource) siblingsDisk (providers registry))
    as (res & Hres & Hlen & _ & _ & _ & Hperm).
  exists res. split; [exact Hres|]. split; [exact Hlen | exact Hperm].
Defined.
End SampleWrites.

(** * More about the registry *)

Section RegistryOrder.
Import OrderedMap OrderedMapFacts.
Variable Provider : Type.
Variable factory : Folder -> URI -> Provider.
Implicit Types reg : Registry Provider.

Lemma get_app {V} k (a b : OrderedMap.t V) :
  get k (a ++ b) = match get k a with Some x => Some x | None => get k b end.
Proof.
  induction a as [|[k' x] a IH]; [reflexivity|]. cbn [app get].
  destruct (String.eqb k' k); [reflexivity | exact IH].
Qed.

Lemma get_filter_key {V} (q : string -> bool) k (m : OrderedMap.t V) :
  get k (filter (fun e => q (fst e)) m) = if q k then get k m else None.
Proof.
  induction m as [|[k' x] m IH]; cbn [filter get fst]; [now destruct (q k)|].
  destruct (q k') eqn:E; cbn [get].
  - destruct (String.eqb_spec k' k) as [->|]; [now rewrite E | exact IH].
  - rewrite IH. destruct (String.eqb_spec k' k) as [->|]; [now rewrite E | reflexivity].
Qed.

Lemma freshEntries_keys seen es :
  keys (freshEntries Provider factory seen es) = distinctFrom seen (map snd es).
Proof.
  revert seen. induction es as [|e es IH]; intros seen; [reflexivity|].
  cbn [freshEntries distinctFrom map]. destruct (mem (snd e) seen); [apply IH|].
  cbn [keys map fst]. f_equal. apply IH.
Qed.

Lemma freshEntries_made seen es k p :
  In (k, p) (freshEntries Provider factory seen es) ->
  exists f, In (f, k) es /\ p = factory f k.
Proof.
  revert seen. induction es as [|[f u] es IH]; intros seen H; [easy|].
  cbn [freshEntries snd fst] in H. destruct (mem u seen).
  - destruct (IH _ H) as (f' & Hin & Hp). exists f'. split; [now right | assumption].
  - destruct H as [H|H].
    + inversion H; subst. exists f. split; [now left | reflexivity].
    + destruct (IH _ H) as (f' & Hin & Hp). exists f'. split; [now right | assumption].
Qed.

(** The registry after a pass: the entries that stay, then the new ones. *)
Lemma pass_providers cfg roots reg :
  providers (updateProviders factory cfg roots reg) =
  filter (fun e => mem (fst e) (desiredKeys cfg roots)) (providers reg)
  ++ freshEntries Provider factory (keys (providers reg)) (desired cfg roots).
Proof.
  rewrite updateProviders_closed_form. cbn [providers]. rewrite filter_app. f_equal.
  - apply filter_ext_in. intros e He. rewrite mem_staleKeys.
    assert (Hk : mem (fst e) (keys (providers reg)) = true).
    { apply mem_true_iff. unfold keys. now apply in_map. }
    rewrite Hk. cbn. apply negb_involutive.
  - apply filter_all. intros e He. rewrite mem_staleKeys.
    assert (Hk : mem (fst e) (keys (providers reg)) = false).
    { apply mem_false_iff.
      apply (freshEntries_keys_sub Provider factory _ (desired cfg roots)).
      unfold keys. now apply in_map. }
    now rewrite Hk.
Qed.

(** The events of a pass on a registry with pairwise different keys. *)
Lemma pass_events cfg roots reg :
  NoDup (keys (providers reg)) ->
  events (updateProviders factory cfg roots reg) =
  events reg
  ++ map Created (distinctFrom (keys (providers reg)) (desiredKeys cfg roots))
  ++ map Disposed (filter (fun k => negb (mem k (desiredKeys cfg roots)))
                          (keys (providers reg))).
Proof.
  intros Hnd. rewrite updateProviders_closed_form. cbn [events].
  rewrite freshEntries_keys. unfold staleKeys, StringSet.of_list.
  now rewrite (nodup_fixed_point string_dec Hnd).
Qed.

(** X1. A pass keeps every registered provider whose key is still desired,
    the same provider at the same place among those that stay, and appends
    the providers of the desired keys that were missing, in loop order, each
    made by the factory for its key and one of the folders it is desired
    for. *)
Theorem updateProviders_keeps_and_appends cfg roots reg :
  exists created,
    providers (updateProviders factory cfg roots reg)
      = filter (fun e => mem (fst e) (desiredKeys cfg roots)) (providers reg)
        ++ created
    /\ keys created = distinctFrom (keys (providers reg)) (desiredKeys cfg roots)
    /\ (forall k p, In (k, p) created ->
          exists f, In (f, k) (desired cfg roots) /\ p = factory f k)
    /\ (forall k, In k (desiredKeys cfg roots) -> In k (keys (providers reg)) ->
          get k (providers (updateProviders factory cfg roots reg))
          = get k (providers reg)).
Proof.
  exists (freshEntries Provider factory (keys (providers reg)) (desired cfg roots)).
  split; [apply pass_providers|]. split; [apply freshEntries_keys|].
  split; [intros k p; apply freshEntries_made|].
  intros k Hd Hk. rewrite pass_providers, get_app.
  rewrite (get_filter_key (fun k => mem k (desiredKeys cfg roots))).
  apply mem_true_iff in Hd. rewrite Hd.
  destruct (get k (providers reg)) eqn:G; [reflexivity|].
  apply get_none_iff in G. contradiction.
Qed.

(** X2. On a registry the program can be in, a pass first creates the
    providers of the desired keys that are not registered, each once and in
    loop order, and then disposes the providers of the registered keys that
    are no longer desired, in the order of their registration; it does
    nothing else. *)
Theorem updateProviders_creates_then_disposes cfg roots reg :
  reachable factory reg ->
  events (updateProviders factory cfg roots reg) =
  events reg
  ++ map Created (distinctFrom (keys (providers reg)) (desiredKeys cfg roots))
  ++ map Disposed (filter (fun k => negb (mem k (desiredKeys cfg roots)))
                          (keys (providers reg))).
Proof. intros H. apply pass_events. now apply (reachable_NoDup _ factory). Qed.

(** X3. In every registry the program can be in, the provider stored under
    a key was made by the factory with that key as its config URI. *)
Theorem registry_providers_made_for_key reg :
  reachable factory reg ->
  forall k p, In (k, p) (providers reg) -> exists f, p = factory f k.
Proof.
  induction 1 as [|cfg roots reg Hr IH]; intros k p Hin; [easy|].
  rewrite pass_providers in Hin. apply in_app_or in Hin as [Hin|Hin].
  - apply filter_In in Hin as [Hin _]. now apply IH.
  - apply freshEntries_made in Hin as (f & _ & Hp). now exists f.
Qed.

(** X4. Without roots a pass empties the registry: it creates nothing and
    disposes every registered provider, in the order of registration. *)
Theorem updateProviders_without_roots cfg reg :
  reachable factory reg ->
  providers (updateProviders factory cfg [] reg) = []
  /\ events (updateProviders factory cfg [] reg)
     = events reg ++ map Disposed (keys (providers reg)).
Proof.
  intros Hr. split.
  - rewrite pass_providers. cbn [desired flat_map desiredKeys map freshEntries].
    rewrite app_nil_r. now apply filter_none.
  - rewrite pass_events by now apply (reachable_NoDup _ factory).
    cbn [desired flat_map desiredKeys map distinctFrom app].
    f_equal. f_equal. now apply filter_all.
Qed.
End RegistryOrder.

(** * More about the folder selector *)

Section SelectorShape.
Import OrderedMap OrderedMapFacts.
Context {World Provider Path : Type}.
Variable P : ProviderOps World Provider.
Variable U : PathOps Path.
Local Open Scope Z_scope.

Local Abbreviation rel := (relativityTo P U).

(** Whatever the scores: either no provider has a score from [0] up to, and
    not including, [MAX_SAFE_INTEGER], or one of them comes first among those
    with the smallest such score. *)
Lemma first_best_or_none r l :
  (forall q, In q l -> rel r q < 0 \/ MAX_SAFE_INTEGER <= rel r q) \/
  exists l1 p l2,
    l = l1 ++ p :: l2 /\ 0 <= rel r p < MAX_SAFE_INTEGER /\
    (forall q, In q l1 -> rel r q < 0 \/ rel r p < rel r q) /\
    (forall q, In q l2 -> rel r q < 0 \/ rel r p <= rel r q).
Proof.
  induction l as [|x l IH] using rev_ind; [left; easy|].
  destruct IH as [Hnone | (l1 & p & l2 & -> & Hp & H1 & H2)].
  - destruct (Z.ltb_spec (rel r x) 0) as [Hx|Hx];
      [|destruct (Z.ltb_spec (rel r x) MAX_SAFE_INTEGER) as [Hm|Hm]].
    + left. intros q Hq. apply in_app_or in Hq as [Hq|[<-|[]]]; auto.
    + right. exists l, x, []. repeat split; [assumption | assumption | | easy].
      intros q Hq. destruct (Hnone q Hq); [left | right]; lia.
    + left. intros q Hq. apply in_app_or in Hq as [Hq|[<-|[]]]; auto.
  - right.
    destruct (Z.ltb_spec (rel r x) 0) as [Hx|Hx];
      [|destruct (Z.ltb_spec (rel r x) (rel r p)) as [Hlt|Hge]].
    + exists l1, p, (l2 ++ [x]). rewrite <- app_assoc. repeat split; try tauto.
      intros q Hq. apply in_app_or in Hq as [Hq|[<-|[]]]; auto.
    + exists (l1 ++ p :: l2), x, []. repeat split; [assumption | lia | | easy].
      intros q Hq. apply in_app_or in Hq as [Hq|[<-|Hq]].
      * destruct (H1 q Hq); [left | right]; lia.
      * right; lia.
      * destruct (H2 q Hq); [left | right]; lia.
    + exists l1, p, (l2 ++ [x]). rewrite <- app_assoc. repeat split; try tauto.
      intros q Hq. apply in_app_or in Hq as [Hq|[<-|[]]]; auto.
Qed.

(** X5. Whatever the registry and the scores, the selector returns either
    nothing or all the providers of one folder, in registry order: a folder
    with a non-empty URI whose score lies from [0] up to, and not including,
    [MAX_SAFE_INTEGER] and is the smallest non-negative score in the
    registry. A folder whose score is [MAX_SAFE_INTEGER] or more is never
    selected: when no score lies in that range the result is empty. *)
Theorem getFolderProviders_one_folder_or_none
    (registry : OrderedMap.t Provider) (resourceUri : option string) :
  (getFolderProviders P U registry resourceUri = [] \/
   exists r winner,
     resourceUri = Some r /\ In winner (values registry)
     /\ folderUri P winner <> ""%string
     /\ 0 <= rel r winner < MAX_SAFE_INTEGER
     /\ (forall q, In q (values registry) -> 0 <= rel r q ->
                   rel r winner <= rel r q)
     /\ getFolderProviders P U registry resourceUri
        = providersOf P (folderUri P winner) registry)
  /\ (forall r, resourceUri = Some r ->
        (forall q, In q (values registry) ->
                   rel r q < 0 \/ MAX_SAFE_INTEGER <= rel r q) ->
        getFolderProviders P U registry resourceUri = []).
Proof.
  split.
  - destruct resourceUri as [r|]; [|now left].
    destruct (String.eqb_spec r "") as [->|Hr]; [now left|].
    rewrite getFolderProviders_given by assumption.
    destruct (first_best_or_none r (values registry))
      as [Hnone | (l1 & p & l2 & Hv & Hp & H1 & H2)].
    + left. rewrite pick_keeps; [reflexivity | exact Hnone].
    + rewrite Hv, pick_first_best by assumption. cbn [best_uri].
      destruct (String.eqb_spec (folderUri P p) "") as [He|Hne]; [now left|].
      right. exists r, p. repeat split; try tauto.
      * apply in_or_app. right. now left.
      * intros q Hq Hq0. apply in_app_or in Hq as [Hq|[<-|Hq]].
        -- destruct (H1 q Hq); lia.
        -- lia.
        -- destruct (H2 q Hq); lia.
  - intros r -> Hnone.
    destruct (String.eqb_spec r "") as [->|Hr]; [reflexivity|].
    rewrite getFolderProviders_given by assumption.
    rewrite pick_keeps; [reflexivity | exact Hnone].
Qed.
End SelectorShape.

(** * More about the groups and the reads *)

Lemma filter_disjoint_perm {A} (a b : A -> bool) l :
  (forall x, a x = true -> b x = false) ->
  Permutation (filter a l ++ filter b l) (filter (fun x => a x || b x) l).
Proof.
  intros Hd. induction l as [|x l IH]; [constructor|]. cbn [filter].
  destruct (a x) eqn:Ea; cbn [orb].
  - rewrite (Hd x Ea). cbn [app]. now constructor.
  - destruct (b x); [|exact IH].
    symmetry. etransitivity; [|apply Permutation_middle].
    constructor. now symmetry.
Qed.

Lemma mem_distinctFrom seen names n :
  mem n (distinctFrom seen names) = negb (mem n seen) && mem n names.
Proof.
  apply eq_true_iff_eq.
  rewrite andb_true_iff, negb_true_iff, mem_false_iff, !mem_true_iff.
  rewrite distinctFrom_spec. tauto.
Qed.

Section GroupPartition.
Import OrderedMap OrderedMapFacts.
Context {World Provider Path : Type}.
Variable P : ProviderOps World Provider.
Variable U : PathOps Path.
Variable cfg : PreferenceConfigurations.

Local Abbreviation nameOf := (fun p => getName cfg (configUriOf P p)).

Lemma get_generated {V} (f : string -> V) names n :
  get n (map (fun k => (k, f k)) names) = if mem n names then Some (f n) else None.
Proof.
  induction names as [|k names IH]; [reflexivity|]. cbn [map get mem existsb].
  rewrite (String.eqb_sym n k).
  destruct (String.eqb_spec k n) as [->|]; [reflexivity | exact IH].
Qed.

Lemma groups_concat (l : list Provider) names :
  NoDup names ->
  Permutation (List.concat (map (groupOf P cfg l) names))
              (filter (fun p => mem (nameOf p) names) l).
Proof.
  induction 1 as [|n names Hn Hnd IH].
  - cbn. rewrite filter_none; [constructor | reflexivity].
  - cbn [map List.concat]. rewrite IH. unfold groupOf.
    apply (filter_disjoint_perm
             (fun p => String.eqb (nameOf p) n)
             (fun p => mem (nameOf p) names)).
    intros p Hp. apply String.eqb_eq in Hp. rewrite Hp.
    now apply mem_false_iff.
Qed.

(** X6. The groups split the folder's providers by config name: looking up
    a declared name (the default config name or a section name) gives the
    folder's providers of that name, in selector order, possibly none, and
    any other name has no group; and taken together the groups hold each
    provider with a declared name exactly once and no provider with another
    name. *)
Theorem groups_partition_by_name registry resourceUri :
  let providers := getFolderProviders P U registry resourceUri in
  let groups := groupProvidersByConfigName P U cfg registry resourceUri in
  let names := getConfigName cfg :: getSectionNames cfg in
  (forall n, get n groups =
             if mem n names then Some (groupOf P cfg providers n) else None)
  /\ Permutation (List.concat (values groups))
                 (filter (fun p => mem (nameOf p) names) providers).
Proof.
  intros providers groups names. split.
  - intros n. subst groups. rewrite groups_closed_form, get_generated.
    unfold distinct. rewrite mem_distinctFrom. reflexivity.
  - subst groups. rewrite groups_values. fold providers. unfold distinct.
    rewrite (groups_concat providers _ (distinctFrom_NoDup [] _)).
    erewrite filter_ext; [reflexivity|].
    intros p. cbv beta. now rewrite mem_distinctFrom.
Qed.
End GroupPartition.

Section ReadShape.
Import OrderedMap OrderedMapFacts.
Context {World Provider Path : Type}.
Variable P : ProviderOps World Provider.
Variable U : PathOps Path.
Variable cfg : PreferenceConfigurations.
Variable w : World.
Variable preferenceName : string.
Variable resourceUri : option string.

Local Abbreviation nameOf := (fun p => getName cfg (configUriOf P p)).
Local Abbreviation first := (firstContribution P w preferenceName resourceUri).
Local Abbreviation answers' := (answers P w preferenceName resourceUri).
Local Abbreviation step := (resolveGroup P w preferenceName resourceUri).

Lemma firstContribution_none group :
  first group = None <-> forall p, In p group -> answers' p = false.
Proof.
  unfold answers. induction group as [|p group IH]; cbn [firstContribution]; [easy|].
  destruct (configUri (resolveIn P w p preferenceName resourceUri)) eqn:Ec;
    [destruct (value (resolveIn P w p preferenceName resourceUri)) eqn:Ev|].
  - split; [discriminate|]. intros H. specialize (H p (or_introl eq_refl)).
    now rewrite Ec, Ev in H.
  - rewrite IH. split.
    + intros H q [<-|Hq]; [now rewrite Ec, Ev | now apply H].
    + intros H q Hq. apply H. now right.
  - rewrite IH. split.
    + intros H q [<-|Hq]; [now rewrite Ec | now apply H].
    + intros H q Hq. apply H. now right.
Qed.

Lemma firstContribution_from group v cu :
  first group = Some (v, cu) ->
  exists p, In p group
            /\ configUri (resolveIn P w p preferenceName resourceUri) = Some cu
            /\ value (resolveIn P w p preferenceName resourceUri) = Some v.
Proof.
  induction group as [|p group IH]; cbn [firstContribution]; [discriminate|].
  destruct (configUri (resolveIn P w p preferenceName resourceUri)) eqn:Ec;
    [destruct (value (resolveIn P w p preferenceName resourceUri)) eqn:Ev|].
  - intros H. inversion H; subst. exists p. repeat split; [now left | assumption | assumption].
  - intros H. destruct (IH H) as (q & Hq & ?). exists q. split; [now right | assumption].
  - intros H. destruct (IH H) as (q & Hq & ?). exists q. split; [now right | assumption].
Qed.

(** The walk keeps value and config URI defined together. *)
Lemma resolve_walk_both groups result :
  (value result = None <-> configUri result = None) ->
  (value (fold_left step groups result) = None <->
   configUri (fold_left step groups result) = None).
Proof.
  revert result. induction groups as [|g groups IH]; intros result H; [exact H|].
  cbn [fold_left]. apply IH. rewrite resolveGroup_first.
  destruct (first g) as [[v cu]|]; [|exact H]. cbn. split; discriminate.
Qed.

(** The config URI after the walk: the one before it when no group
    contributes, the contribution of one of the groups otherwise. *)
Lemma resolve_walk_source (providers : list Provider) names result :
  (configUri (fold_left step (map (groupOf P cfg providers) names) result)
     = configUri result
   /\ forall n, In n names -> first (groupOf P cfg providers n) = None)
  \/ exists n v cu,
       In n names /\ first (groupOf P cfg providers n) = Some (v, cu)
       /\ configUri (fold_left step (map (groupOf P cfg providers) names) result)
          = Some cu.
Proof.
  revert result. induction names as [|n names IH]; intros result; [left; easy|].
  cbn [map fold_left]. rewrite resolveGroup_first.
  destruct (first (groupOf P cfg providers n)) as [[v cu]|] eqn:E.
  - right.
    destruct (IH {| value := Some (merge (value result) v); configUri := Some cu |})
      as [[Hc Hn] | (n' & v' & cu' & Hin & Hf & Hc)].
    + exists n, v, cu. repeat split; [now left | assumption | exact Hc].
    + exists n', v', cu'. repeat split; [now right | assumption | assumption].
  - destruct (IH result) as [[Hc Hn] | (n' & v' & cu' & Hin & Hf & Hc)].
    + left. split; [exact Hc|]. intros k [<-|Hk]; [assumption | now apply Hn].
    + right. exists n', v', cu'. repeat split; [now right | assumption | assumption].
Qed.

(** X7. [resolve] returns a value exactly when it returns a config URI:
    both or neither. *)
Theorem resolve_value_and_configUri_together registry :
  value (resolve P U cfg w registry preferenceName resourceUri) = None
  <-> configUri (resolve P U cfg w registry preferenceName resourceUri) = None.
Proof. unfold resolve. now apply resolve_walk_both. Qed.

(** X8. [resolve] is defined exactly when some provider of the selected
    folder, with a declared config name, answers with both a value and a
    config URI; and the config URI it returns is one that such a provider
    answered with. *)
Theorem resolve_defined_by_folder_provider registry :
  let providers := getFolderProviders P U registry resourceUri in
  let names := getConfigName cfg :: getSectionNames cfg in
  let result := resolve P U cfg w registry preferenceName resourceUri in
  (configUri result <> None <->
   exists p, In p providers /\ In (nameOf p) names /\ answers' p = true)
  /\ (forall u, configUri result = Some u ->
        exists p, In p providers /\ In (nameOf p) names
                  /\ configUri (resolveIn P w p preferenceName resourceUri) = Some u
                  /\ value (resolveIn P w p preferenceName resourceUri) <> None).
Proof.
  intros providers names result.
  assert (Hres : result = fold_left step (map (groupOf P cfg providers) (distinct names))
                            {| value := None; configUri := None |}).
  { subst result. unfold resolve. now rewrite groups_values. }
  assert (Hname : forall n, In n (distinct names) <-> In n names).
  { intros n. unfold distinct. rewrite distinctFrom_spec. tauto. }
  pose proof (resolve_walk_source providers (distinct names)
                {| value := None; configUri := None |}) as Hw.
  rewrite <- Hres in Hw. cbn [configUri] in Hw.
  assert (Hsome : forall u, configUri result = Some u ->
            exists p, In p providers /\ In (nameOf p) names
                      /\ configUri (resolveIn P w p preferenceName resourceUri) = Some u
                      /\ value (resolveIn P w p preferenceName resourceUri) <> None).
  { intros u Hu. destruct Hw as [[Hc _] | (n & v & cu & Hin & Hf & Hc)]; [congruence|].
    apply firstContribution_from in Hf as (p & Hp & Hcu & Hv).
    apply filter_In in Hp as [Hp Hn]. apply String.eqb_eq in Hn.
    exists p. repeat split.
    - assumption.
    - rewrite Hn. now apply Hname.
    - congruence.
    - congruence. }
  split; [|exact Hsome]. split.
  - intros Hd. destruct (configUri result) as [u|] eqn:E; [|contradiction].
    destruct (Hsome u eq_refl) as (p & Hp & Hn & Hcu & Hv).
    exists p. repeat split; try assumption. unfold answers. rewrite Hcu.
    now destruct (value (resolveIn P w p preferenceName resourceUri)).
  - intros (p & Hp & Hn & Ha).
    destruct Hw as [[_ Hnone] | (n & v & cu & _ & _ & Hc)]; [|congruence].
    exfalso. specialize (Hnone (nameOf p) (proj2 (Hname _) Hn)).
    rewrite firstContribution_none in Hnone.
    rewrite Hnone in Ha; [discriminate|].
    apply filter_In. split; [assumption | apply String.eqb_refl].
Qed.

Lemma walk_nothing {A} (f : A -> list Provider -> A) (names : list string) (a : A) :
  (forall a, f a [] = a) ->
  fold_left f (map (groupOf P cfg []) names) a = a.
Proof.
  intros Hf. induction names as [|n names IH]; [reflexivity|].
  cbn [map fold_left groupOf filter]. now rewrite Hf.
Qed.

(** X9. When the selector returns no provider, as it does without a
    resource URI, [resolve] returns neither value nor config URI and
    [getPreferences] returns the empty object. *)
Theorem reads_on_empty_selection registry :
  (getFolderProviders P U registry resourceUri = [] ->
   resolve P U cfg w registry preferenceName resourceUri
     = {| value := None; configUri := None |}
   /\ getPreferences P U cfg w registry resourceUri = JObj [])
  /\ (resourceUri = None \/ resourceUri = Some ""%string ->
      getFolderProviders P U registry resourceUri = []).
Proof.
  split.
  - intros H. unfold resolve, getPreferences. rewrite groups_values, H.
    split; now apply walk_nothing.
  - now intros [-> | ->].
Qed.
End ReadShape.

(** * The config URI of a resource *)

Section LookupFacts.
Context {World Provider Path : Type}.
Variable P : ProviderOps World Provider.
Variable U : PathOps Path.
Variable isConfigUri : option URI -> bool.
Variable contains : World -> Provider -> option string -> bool.
Variable w : World.
Variable resourceUri : option string.

Local Abbreviation reported := (fun p => getConfigUriFor P w p resourceUri).

Lemma firstConfigUri_split providers u :
  firstConfigUri P isConfigUri w resourceUri providers = Some u <->
  exists before p after,
    providers = before ++ p :: after
    /\ (forall q, In q before -> isConfigUri (reported q) = false)
    /\ isConfigUri (reported p) = true
    /\ reported p = Some u.
Proof.
  induction providers as [|x providers IH]; cbn [firstConfigUri].
  - split; [discriminate|]. intros (before & p & after & H & _).
    now destruct before.
  - destruct (isConfigUri (reported x)) eqn:E.
    + split.
      * intros H. exists [], x, providers. repeat split; [easy | assumption | assumption].
      * intros (before & p & after & H & Hb & Hp & Hu).
        destruct before as [|y before]; cbn in H; inversion H; subst.
        -- assumption.
        -- specialize (Hb y (or_introl eq_refl)). congruence.
    + rewrite IH. split.
      * intros (before & p & after & -> & Hb & Hp & Hu).
        exists (x :: before), p, after. repeat split; try assumption.
        intros q [<-|Hq]; [assumption | now apply Hb].
      * intros (before & p & after & H & Hb & Hp & Hu).
        destruct before as [|y before]; cbn in H; inversion H; subst.
        -- congruence.
        -- exists before, p, after. repeat split; try assumption.
           intros q Hq. apply Hb. now right.
Qed.

(** X10. [getConfigUri] returns the config URI that the first provider of
    the selected folder, in selector order, reports for the resource and
    [isConfigUri] accepts, and nothing else: it returns [u] exactly when
    such a provider reports [u] and [isConfigUri] rejects what every
    provider before it reports. Without a selected folder it returns
    nothing. *)
Theorem getConfigUri_first_accepted registry :
  let providers := getFolderProviders P U registry resourceUri in
  (forall u,
     getConfigUri P U isConfigUri w registry resourceUri = Some u <->
     exists before p after,
       providers = before ++ p :: after
       /\ (forall q, In q before -> isConfigUri (reported q) = false)
       /\ isConfigUri (reported p) = true
       /\ reported p = Some u)
  /\ (providers = [] ->
      getConfigUri P U isConfigUri w registry resourceUri = None).
Proof.
  intros providers. split.
  - intros u. apply firstConfigUri_split.
  - intros H. unfold getConfigUri. fold providers. now rewrite H.
Qed.

Lemma firstContainingConfigUri_split providers u :
  firstContainingConfigUri P isConfigUri contains w resourceUri providers = Some u <->
  exists before p after,
    providers = before ++ p :: after
    /\ (forall q, In q before ->
          isConfigUri (Some (configUriOf P q)) && contains w q resourceUri = false)
    /\ isConfigUri (Some (configUriOf P p)) = true
    /\ contains w p resourceUri = true
    /\ u = configUriOf P p.
Proof.
  induction providers as [|x providers IH]; cbn [firstContainingConfigUri].
  - split; [discriminate|]. intros (before & p & after & H & _).
    now destruct before.
  - destruct (isConfigUri (Some (configUriOf P x)) && contains w x resourceUri) eqn:E.
    + split.
      * intros H. inversion H; subst. apply andb_true_iff in E as [E1 E2].
        exists [], x, providers. repeat split; [easy | assumption | assumption].
      * intros (before & p & after & H & Hb & Hp & Hc & ->).
        destruct before as [|y before]; cbn in H; inversion H; subst.
        -- reflexivity.
        -- specialize (Hb y (or_introl eq_refl)). congruence.
    + rewrite IH. split.
      * intros (before & p & after & -> & Hb & Hp & Hc & ->).
        exists (x :: before), p, after. repeat split; try assumption.
        intros q [<-|Hq]; [assumption | now apply Hb].
      * intros (before & p & after & H & Hb & Hp & Hc & ->).
        destruct before as [|y before]; cbn in H; inversion H; subst.
        -- rewrite Hp, Hc in E. discriminate.
        -- exists before, p, after. repeat split; try assumption.
           intros q Hq. apply Hb. now right.
Qed.

(** X17. [getContainingConfigUri] returns the own config URI of the first
    provider of the selected folder, in selector order, whose config URI
    [isConfigUri] accepts and which contains the resource, and nothing else;
    without a selected folder it returns nothing. *)
Theorem getContainingConfigUri_first_containing registry :
  let providers := getFolderProviders P U registry resourceUri in
  (forall u,
     getContainingConfigUri P U isConfigUri contains w registry resourceUri = Some u <->
     exists before p after,
       providers = before ++ p :: after
       /\ (forall q, In q before ->
             isConfigUri (Some (configUriOf P q)) && contains w q resourceUri = false)
       /\ isConfigUri (Some (configUriOf P p)) = true
       /\ contains w p resourceUri = true
       /\ u = configUriOf P p)
  /\ (providers = [] ->
      getContainingConfigUri P U isConfigUri contains w registry resourceUri = None).
Proof.
  intros providers. split.
  - intros u. apply firstContainingConfigUri_split.
  - intros H. unfold getContainingConfigUri. fold providers. now rewrite H.
Qed.

Lemma first_lookups_agree providers :
  isConfigUri None = false ->
  (forall p, In p providers ->
     reported p = if contains w p resourceUri then Some (configUriOf P p) else None) ->
  firstConfigUri P isConfigUri w resourceUri providers
  = firstContainingConfigUri P isConfigUri contains w resourceUri providers.
Proof.
  intros Hnone. induction providers as [|p providers IH]; intros H; [reflexivity|].
  cbn [firstConfigUri firstContainingConfigUri].
  rewrite (H p (or_introl eq_refl)).
  rewrite IH by (intros; apply H; now right).
  destruct (contains w p resourceUri).
  - rewrite andb_true_r. reflexivity.
  - rewrite Hnone, andb_false_r. reflexivity.
Qed.

(** X11. When [isConfigUri] rejects [undefined] and every provider of the
    selected folder reports, for the resource, its own config URI if it
    contains the resource and nothing otherwise, [getConfigUri] and
    [getContainingConfigUri] return the same. *)
Theorem getConfigUri_getContainingConfigUri_agree registry :
  isConfigUri None = false ->
  (forall p, In p (getFolderProviders P U registry resourceUri) ->
     reported p = if contains w p resourceUri then Some (configUriOf P p) else None) ->
  getConfigUri P U isConfigUri w registry resourceUri
  = getContainingConfigUri P U isConfigUri contains w registry resourceUri.
Proof. intros Hnone H. now apply first_lookups_agree. Qed.
End LookupFacts.

(** * More about writes *)

Section WriteRouting.
Context {World Provider Path : Type}.
Variable P : ProviderOps World Provider.
Variable U : PathOps Path.
Variable cfg : PreferenceConfigurations.
Variable preferenceName : string.
Variable v : JSON.
Variable resourceUri : option string.

Local Abbreviation write := (fun p w => setPreferenceOn P p preferenceName v resourceUri w).
Local Abbreviation thirdTier' := (thirdTier P preferenceName v resourceUri).
Local Abbreviation secondTier' := (secondTier P cfg preferenceName v resourceUri).
Local Abbreviation firstTier' := (firstTier P cfg preferenceName v resourceUri).
Local Abbreviation inOrder := (writeInOrder P preferenceName v resourceUri).
Local Abbreviation has := (hasConfigUri P resourceUri).
Local Abbreviation candidates' := (candidates P U cfg preferenceName resourceUri).

(** X12. [setPreference] only ever turns to providers of the selected
    folder whose config name is the one the preference name resolves to:
    every thunk it calls, and so every write it attempts, belongs to such a
    provider. *)
Theorem setPreference_stays_in_folder_and_name w registry :
  exists res,
    setPreference P U cfg w registry preferenceName v resourceUri = Some res
    /\ forall t, In t (turns res) ->
         In (owner (called t)) (getFolderProviders P U registry resourceUri)
         /\ getName cfg (configUriOf P (owner (called t)))
            = configNameFor cfg preferenceName.
Proof.
  eexists. split; [apply setPreference_tiers|].
  intros t Ht. apply firstTier_owners in Ht. rewrite app_nil_r in Ht.
  unfold candidates, groupOf in Ht. apply filter_In in Ht as [Hin Hn].
  split; [assumption | now apply String.eqb_eq].
Qed.

(** *** Nothing exists yet *)

Lemma sharedConfigPath_none w providers :
  (forall p, In p providers -> getConfigUriFor P w p resourceUri = None) ->
  sharedConfigPath P cfg resourceUri w providers = None.
Proof.
  induction providers as [|p providers IH]; intros H; [reflexivity|].
  cbn [sharedConfigPath]. rewrite (H p (or_introl eq_refl)).
  apply IH. intros; apply H; now right.
Qed.

Lemma firstTier_all_decline cp l later w :
  (forall p, In p l -> has w p = false) ->
  outcome (firstTier' cp l later w) = outcome (secondTier' cp (later ++ l) [] w).
Proof.
  revert later. induction l as [|p l IH]; intros later H; cbn [firstTier].
  - now rewrite app_nil_r.
  - rewrite (H p (or_introl eq_refl)).
    rewrite (outcome_declined (Tier1 p)), IH by (intros; apply H; now right).
    now rewrite <- app_assoc.
Qed.

(** X13. When no provider of the selected folder has a config URI for the
    resource, [setPreference] writes to the candidates in their order until
    one accepts: no candidate is preferred, and the first one that accepts
    the write gets it. *)
Theorem setPreference_falls_back_in_order w registry :
  (forall p, In p (getFolderProviders P U registry resourceUri) ->
             getConfigUriFor P w p resourceUri = None) ->
  exists res,
    setPreference P U cfg w registry preferenceName v resourceUri = Some res
    /\ outcome res = inOrder (candidates' registry) w.
Proof.
  intros Hnone. eexists. split; [apply setPreference_tiers|].
  rewrite sharedConfigPath_none by assumption.
  rewrite firstTier_all_decline.
  - rewrite secondTier_order. cbn [app pathMatches].
    rewrite filter_none by reflexivity.
    rewrite filter_all by reflexivity. reflexivity.
  - intros p Hp. unfold hasConfigUri. rewrite Hnone; [reflexivity|].
    unfold candidates, groupOf in Hp. now apply filter_In in Hp as [Hp _].
Qed.

(** *** A config file exists *)

Lemma firstTier_first_existing cp before c after later w w' :
  (forall q, In q before -> has w q = false) ->
  has w c = true ->
  write c w = (true, w') ->
  outcome (firstTier' cp (before ++ c :: after) later w) = (true, w', [(c, true)]).
Proof.
  intros Hb Hc Hw. revert later.
  induction before as [|q before IH]; intros later; cbn [app firstTier].
  - rewrite Hc, Hw. reflexivity.
  - rewrite (Hb q (or_introl eq_refl)).
    rewrite (outcome_declined (Tier1 q)). apply IH. intros; apply Hb; now right.
Qed.

(** X14. When a candidate has a config URI for the resource, no candidate
    before it has one, and it accepts the write, [setPreference] returns
    [true] after this one write: the existing file gets the preference and
    no other provider is written to. *)
Theorem setPreference_prefers_existing_file w registry before c after w' :
  candidates' registry = before ++ c :: after ->
  (forall q, In q before -> getConfigUriFor P w q resourceUri = None) ->
  getConfigUriFor P w c resourceUri <> None ->
  write c w = (true, w') ->
  exists res,
    setPreference P U cfg w registry preferenceName v resourceUri = Some res
    /\ outcome res = (true, w', [(c, true)]).
Proof.
  intros Hc Hb Hu Hw. eexists. split; [apply setPreference_tiers|].
  rewrite Hc. apply firstTier_first_existing; [| |assumption].
  - intros q Hq. unfold hasConfigUri. now rewrite (Hb q Hq).
  - unfold hasConfigUri. now destruct (getConfigUriFor P w c resourceUri).
Qed.
End WriteRouting.

(** *** The config name of a preference name *)

Lemma firstSegment_until_dot a b :
  (forall c, In c (list_ascii_of_string a) -> c <> "."%char) ->
  firstSegment (a ++ String "."%char b) = a.
Proof.
  induction a as [|c a IH]; intros H.
  - reflexivity.
  - cbn [String.append firstSegment].
    destruct (Ascii.eqb_spec c "."%char) as [->|_].
    + exfalso. apply (H "."%char); [now left | reflexivity].
    + f_equal. apply IH. intros d Hd. apply H. now right.
Qed.

Lemma firstSegment_without_dot a :
  (forall c, In c (list_ascii_of_string a) -> c <> "."%char) ->
  firstSegment a = a.
Proof.
  induction a as [|c a IH]; intros H; [reflexivity|]. cbn [firstSegment].
  destruct (Ascii.eqb_spec c "."%char) as [->|_].
  - exfalso. apply (H "."%char); [now left | reflexivity].
  - f_equal. apply IH. intros d Hd. apply H. now right.
Qed.

(** X15. A preference name [a.b], where [a] has no dot, is routed by [a]
    alone: to the section [a] when [a] is a section name, to the default
    config name otherwise, whatever follows the first dot; a name without a
    dot is routed by the whole name. *)
Theorem configNameFor_first_segment cfg a b :
  (forall c, In c (list_ascii_of_string a) -> c <> "."%char) ->
  configNameFor cfg (a ++ String "."%char b)
    = (if isSectionName cfg a then a else getConfigName cfg)
  /\ configNameFor cfg a = (if isSectionName cfg a then a else getConfigName cfg).
Proof.
  intros H. unfold configNameFor.
  now rewrite firstSegment_until_dot, firstSegment_without_dot.
Qed.

(** * File URIs *)

Module FileUriFacts.
Import FileUri.

Lemma windowsDriveRegex_driveRoot s : windowsDriveRegex s = true <-> driveRoot s.
Proof.
  split.
  - induction s as [|c rest IH]; cbn [windowsDriveRegex]; [discriminate|].
    destruct (excluded c) eqn:Ec; [discriminate|].
    destruct (String.eqb_spec rest ":") as [->|Hr].
    + intros _. exists (String c EmptyString). repeat split; [discriminate|].
      intros d [<-|[]]. assumption.
    + intros H. destruct (IH H) as (body & -> & Hb & Hc).
      exists (String c body). repeat split; [discriminate|].
      intros d [<-|Hd]; [assumption | now apply Hc].
  - intros (body & -> & Hb & Hc). induction body as [|c body IH]; [contradiction|].
    cbn [String.append windowsDriveRegex].
    rewrite (Hc c (or_introl eq_refl)).
    destruct body as [|d body']; [reflexivity|].
    destruct (String.eqb (String d body' ++ ":") ":"); [reflexivity|].
    apply IH; [discriminate|]. intros e He. apply Hc. now right.
Qed.

Lemma windowsDriveRegex_backslash s : windowsDriveRegex (s ++ "\") = false.
Proof.
  induction s as [|c rest IH]; [reflexivity|]. cbn [String.append windowsDriveRegex].
  destruct (excluded c); [reflexivity|].
  destruct (String.eqb_spec (rest ++ "\") ":") as [He|_]; [|exact IH].
  destruct rest as [|d rest']; cbn in He; [discriminate|].
  inversion He as [[Hd Hr]]. destruct rest'; discriminate.
Qed.

(** X16. On Windows [fsPath] appends a backslash to a drive root and
    returns every other path as it is, so it never returns a bare drive
    root; on other platforms it returns the path as it is. *)
Theorem fsPath_completes_drive_root s :
  fsPath false s = s
  /\ (driveRoot s -> fsPath true s = (s ++ "\")%string)
  /\ (~ driveRoot s -> fsPath true s = s)
  /\ ~ driveRoot (fsPath true s).
Proof.
  split; [reflexivity|]. unfold fsPath.
  destruct (windowsDriveRegex s) eqn:E.
  - split; [reflexivity|]. split.
    + intros H. exfalso. apply H. now apply windowsDriveRegex_driveRoot.
    + rewrite <- windowsDriveRegex_driveRoot, windowsDriveRegex_backslash. discriminate.
  - assert (Hn : ~ driveRoot s).
    { rewrite <- windowsDriveRegex_driveRoot, E. discriminate. }
    split; [intros H; contradiction|]. split; [reflexivity | exact Hn].
Qed.
End FileUriFacts.

(** * The sample workspace, continued *)

Module SampleMore.
Import Sample SampleFacts SampleLookup.

Lemma updateProviders_creates_then_disposes_witness :
  events (updateProviders factory cfg [ {| uri := "file:///a" |} ] registry) =
  events registry
  ++ map Created
       (distinctFrom (OrderedMap.keys (providers registry))
          (desiredKeys cfg [ {| uri := "file:///a" |} ]))
  ++ map Disposed
       (filter (fun k => negb (mem k (desiredKeys cfg [ {| uri := "file:///a" |} ])))
          (OrderedMap.keys (providers registry))).
Proof.
  exact (updateProviders_creates_then_disposes Prov factory cfg
           [ {| uri := "file:///a" |} ] registry
           (reachable_update Prov factory cfg roots initial
              (reachable_initial Prov factory))).
Defined.

Lemma registry_providers_made_for_key_witness :
  Forall (fun e => exists f, snd e = factory f (fst e)) (providers registry).
Proof.
  apply Forall_forall. intros [k p] Hin.
  exact (registry_providers_made_for_key Prov factory registry
           (reachable_update Prov factory cfg roots initial
              (reachable_initial Prov factory)) k p Hin).
Defined.

Lemma updateProviders_without_roots_witness :
  providers (updateProviders factory cfg [] registry) = []
  /\ events (updateProviders factory cfg [] registry)
     = events registry ++ map Disposed (OrderedMap.keys (providers registry)).
Proof.
  exact (updateProviders_without_roots Prov factory cfg registry
           (reachable_update Prov factory cfg roots initial
              (reachable_initial Prov factory))).
Defined.

Lemma getConfigUri_getContainingConfigUri_agree_witness :
  getConfigUri ops paths (isConfigUri fullDisk) fullDisk (providers registry)
    (Some resource)
  = getContainingConfigUri ops paths (isConfigUri fullDisk) contains fullDisk
      (providers registry) (Some resource).
Proof.
  apply (getConfigUri_getContainingConfigUri_agree ops paths (isConfigUri fullDisk)
           contains fullDisk (Some resource) (providers registry)).
  - reflexivity.
  - intros p Hp. vm_compute in Hp.
    repeat (destruct Hp as [<-|Hp]; [vm_compute; reflexivity|]).
    contradiction.
Defined.

Lemma setPreference_falls_back_in_order_witness :
  exists res,
    setPreference ops paths cfg bareDisk (providers registry)
      "foo.bar" (JNum 1) (Some resource) = Some res
    /\ outcome res
       = writeInOrder ops "foo.bar" (JNum 1) (Some resource)
           [ providerAt "file:///a/b" ".kaitian" "settings";
             providerAt "file:///a/b" ".vscode" "settings";
             providerAt "file:///a/b" ".theia" "settings" ] bareDisk.
Proof.
  apply (setPreference_falls_back_in_order ops paths cfg "foo.bar" (JNum 1)
           (Some resource) bareDisk (providers registry)).
  intros p Hp. vm_compute in Hp.
  repeat (destruct Hp as [<-|Hp]; [vm_compute; reflexivity|]).
  contradiction.
Defined.

Lemma setPreference_prefers_existing_file_witness :
  let c := providerAt "file:///a/b" ".vscode" "launch" in
  exists res,
    setPreference ops paths cfg siblingsDisk (providers registry)
      "launch.foo" (JNum 1) (Some resource) = Some res
    /\ outcome res
       = (true,
          snd (setPreferenceOn ops c "launch.foo" (JNum 1) (Some resource) siblingsDisk),
          [(c, true)]).
Proof.
  intros c.
  refine (setPreference_prefers_existing_file ops paths cfg "launch.foo" (JNum 1)
            (Some resource) siblingsDisk (providers registry)
            [ providerAt "file:///a/b" ".kaitian" "launch" ] c
            [ providerAt "file:///a/b" ".theia" "launch" ] _ _ _ _ _).
  - vm_compute. reflexivity.
  - intros q [<-|[]]. vm_compute. reflexivity.
  - vm_compute. discriminate.
  - vm_compute. reflexivity.
Defined.

Lemma configNameFor_first_segment_witness :
  configNameFor cfg "launch.foo" = "launch"
  /\ configNameFor cfg "launch" = "launch".
Proof.
  apply (configNameFor_first_segment cfg "launch" "foo").
  intros c Hc. vm_compute in Hc.
  repeat (destruct Hc as [<-|Hc]; [discriminate|]). contradiction.
Defined.
End SampleMore.
